(** * Speaker-aligned transcript assembly (PyannoteDiarizationService)

    A shallow embedding of the list-processing stages of
    [src/server/app/services/pyannote_diarization_service.py]:

    - [_merge_overlapping_chunks]   (chunk merger),
    - [_parse_whisper_output]       (hallucination filter),
    - [_post_process_diarization]   (diarization smoother),
    - [_align_whisper_with_diarization], [_find_nearest_speaker],
    - [_remove_redundant_segments]  (redundancy remover),
    - [_merge_consecutive_speakers] (turn merger),
    - the list-processing tail of [process_with_speakers].

    Conventions of the embedding.

    - Times are Python floats in the source.  They are embedded as exact
      rationals [Q]: every comparison, subtraction and product is the one
      the source writes, evaluated without rounding (no NaN, no infinity).
      Values that the source copies from one record to another
      ([prev['end']] into [current['start']], ...) are copied here as well,
      so results can be compared with Leibniz equality.
    - Text is a Python [str].  It is embedded as [string]; a character is
      read as a code point below 256.
    - The diarization is a pyannote.core [Annotation].  The service reads
      it through [itertracks] and builds a new one with
      [annotation[segment] = label]; the container is embedded as the list
      of tracks it yields, kept in the order of the segments.
    - A Python [dict] with a fixed set of keys is a record.  The loops of
      the source mutate the dictionaries they were handed; each dictionary
      is created once by the caller and occurs once in its list, so what a
      function returns is determined by the values, which is what is
      modelled. *)

From Stdlib Require Import ZArith QArith Qabs Lqa.
From Stdlib Require Import List String Ascii Bool Arith Lia.
From Stdlib Require Import Sorted.
Import ListNotations.

Open Scope string_scope.
Open Scope list_scope.
Open Scope Q_scope.

(** ** Float comparisons *)

(** [a < b] on times, as a boolean. *)
Definition Qltb (a b : Q) : bool := negb (Qle_bool b a).

(** Python's [max(a, b)]: the first argument unless the second is larger. *)
Definition py_max (a b : Q) : Q := if Qltb a b then b else a.

(** Python's [min(a, b)]: the first argument unless the second is smaller. *)
Definition py_min (a b : Q) : Q := if Qltb b a then b else a.

(** ** Python strings *)

(** [str.isspace] on one character: TAB..CR, FS..US, space, NEL, NBSP. *)
Definition is_space (c : ascii) : bool :=
  let n := nat_of_ascii c in
  ((9 <=? n) && (n <=? 13) || (28 <=? n) && (n <=? 32)
   || (n =? 133) || (n =? 160))%nat.

(** [str.split()] without argument: the maximal runs of non-blank
    characters.  [word] is the run being read. *)
Fixpoint split_from (word : string) (s : string) : list string :=
  match s with
  | EmptyString => if (String.length word =? 0)%nat then [] else [word]
  | String c s' =>
      if is_space c then
        if (String.length word =? 0)%nat then split_from "" s'
        else word :: split_from "" s'
      else split_from (word ++ String c "")%string s'
  end.

Definition split (s : string) : list string := split_from "" s.

(** [sep.join(words)]. *)
Definition join (sep : string) (words : list string) : string :=
  String.concat sep words.

(** Equality of two lists of words ([==] on Python lists of [str]). *)
Fixpoint words_eqb (u v : list string) : bool :=
  match u, v with
  | [], [] => true
  | a :: u', b :: v' => String.eqb a b && words_eqb u' v'
  | _, _ => false
  end.

(** The slice [l[-k:]].  The index [-0] is [0], so [l[-0:]] is all of [l];
    for [k] beyond the length the slice is all of [l] too. *)
Definition slice_last (k : nat) {A : Type} (l : list A) : list A :=
  if (k =? 0)%nat then l else skipn (List.length l - k) l.

(* The slices [l[:k]] and [l[k:]] are [firstn k l] and [skipn k l]. *)

(** ** Chunk merger: [_merge_overlapping_chunks] *)

(** A Whisper chunk: [{'timestamp': (start, end), 'text': ...}]. *)
Record Chunk : Type := mkChunk {
  timestamp : Q * Q;
  text : string
}.

Definition ts0 (c : Chunk) : Q := fst (timestamp c).
Definition ts1 (c : Chunk) : Q := snd (timestamp c).

(** The chunk that replaces [prev] when [current] is stitched onto it. *)
Definition stitched (prev current : Chunk) : Chunk :=
  let current_words := split (text current) in
  let overlap_words := Nat.min 5 (List.length (split (text prev))) in
  {| timestamp := (ts0 prev, ts1 current);
     text := (text prev ++ " " ++ join " " (skipn overlap_words current_words))%string |}.

(** The test guarding the stitch: temporal overlap, more than half of
    [prev] overlapped, and matching boundary words. *)
Definition boundary_words_match (prev current : Chunk) : bool :=
  let prev_words := split (text prev) in
  let current_words := split (text current) in
  let overlap_words := Nat.min 5 (List.length prev_words) in
  words_eqb (slice_last overlap_words prev_words)
            (firstn overlap_words current_words).

(** One iteration of the loop over [chunks[1:]].  [merged] is never empty
    inside the loop, so [merged[-1]] is [last merged current]. *)
Definition merge_chunk (merged : list Chunk) (current : Chunk) : list Chunk :=
  let prev := last merged current in
  if Qltb (ts0 current) (ts1 prev) then
    let overlap_duration := ts1 prev - ts0 current in
    if Qltb ((ts1 prev - ts0 prev) * 0.5) overlap_duration then
      if boundary_words_match prev current then
        removelast merged ++ [stitched prev current]
      else merged ++ [current]
    else merged ++ [current]
  else merged ++ [current].

Definition _merge_overlapping_chunks (chunks : list Chunk) : list Chunk :=
  match chunks with
  | [] => chunks
  | first :: rest => fold_left merge_chunk rest [first]
  end.

(** ** Hallucination filter: [_parse_whisper_output] *)

Definition is_digit (c : ascii) : bool :=
  let n := nat_of_ascii c in ((48 <=? n) && (n <=? 57))%nat.

(** The longest prefix of digits, and what follows it. *)
Fixpoint take_digits (s : string) : string * string :=
  match s with
  | EmptyString => ("", "")
  | String c s' =>
      if is_digit c then
        let (d, r) := take_digits s' in (String c d, r)
      else ("", s)
  end.

Definition is_empty (s : string) : bool := (String.length s =? 0)%nat.

(** A match of [<\|(\d+\.\d+)\|>] at the head of [s]: the captured group
    and the length of the whole match.  Digits, the dot and the bar are
    distinct characters, so the greedy [\d+] never has to give back. *)
Definition match_timestamp (s : string) : option (string * nat) :=
  match s with
  | String "<" (String "|" s1) =>
      let (d1, s2) := take_digits s1 in
      if is_empty d1 then None
      else
        match s2 with
        | String "." s3 =>
            let (d2, s4) := take_digits s3 in
            if is_empty d2 then None
            else
              match s4 with
              | String "|" (String ">" _) =>
                  Some ((d1 ++ "." ++ d2)%string,
                        (2 + String.length d1 + 1 + String.length d2 + 2)%nat)
              | _ => None
              end
        | _ => None
        end
  | _ => None
  end.

(** [re.split(timestamp_pattern, text)]: the pieces between the matches,
    interleaved with the captured groups.  [skip] counts the characters of
    the current match still to be passed over, [piece] is the text read
    since the last match. *)
Fixpoint re_split_from (skip : nat) (piece : string) (s : string)
  : list string :=
  match s with
  | EmptyString => [piece]
  | String c s' =>
      match skip with
      | S k => re_split_from k piece s'
      | O =>
          match match_timestamp s with
          | Some (g, n) => piece :: g :: re_split_from (n - 1) "" s'
          | None => re_split_from 0 (piece ++ String c "")%string s'
          end
      end
  end.

Definition re_split_timestamps (s : string) : list string :=
  re_split_from 0 "" s.

(** The number of characters before the first [|>], provided no newline
    comes before it (the dot of [.*?] does not match a newline). *)
Fixpoint find_close (s : string) : option nat :=
  match s with
  | EmptyString => None
  | String c s' =>
      match c, s' with
      | "|"%char, String ">" _ => Some O
      | _, _ =>
          if (nat_of_ascii c =? 10)%nat then None
          else option_map S (find_close s')
      end
  end.

(** A match of [<\|.*?\|>] at the head of [s]: its length. *)
Definition match_token (s : string) : option nat :=
  match s with
  | String "<" (String "|" s1) =>
      option_map (fun j => (2 + j + 2)%nat) (find_close s1)
  | _ => None
  end.

(** [re.sub(r'<\|.*?\|>', '', text)]. *)
Fixpoint re_sub_from (skip : nat) (s : string) : string :=
  match s with
  | EmptyString => ""
  | String c s' =>
      match skip with
      | S k => re_sub_from k s'
      | O =>
          match match_token s with
          | Some n => re_sub_from (n - 1) s'
          | None => String c (re_sub_from 0 s')
          end
      end
  end.

Definition re_sub_tokens (s : string) : string := re_sub_from 0 s.

Fixpoint lstrip (s : string) : string :=
  match s with
  | EmptyString => ""
  | String c s' => if is_space c then lstrip s' else s
  end.

Fixpoint rev_string (acc s : string) : string :=
  match s with
  | EmptyString => acc
  | String c s' => rev_string (String c acc) s'
  end.

(** [str.strip()]. *)
Definition strip (s : string) : string :=
  rev_string "" (lstrip (rev_string "" (lstrip s))).

(** [needle in hay] on strings: [needle] occurs as a substring. *)
Fixpoint contains (needle hay : string) : bool :=
  String.prefix needle hay
  || match hay with
     | EmptyString => false
     | String _ hay' => contains needle hay'
     end.

(** The value of a string of decimal digits. *)
Fixpoint digits_value (acc : Z) (s : string) : Z :=
  match s with
  | EmptyString => acc
  | String c s' =>
      digits_value (10 * acc + Z.of_nat (nat_of_ascii c - 48))%Z s'
  end.

(** [float(s)] for the strings the timestamp pattern captures, digits dot
    digits; the call raises [ValueError] ([None]) on what is not a number,
    and no other string reaches it here. *)
Definition float_of (s : string) : option Q :=
  let (d1, r) := take_digits s in
  match r with
  | String "." r' =>
      let (d2, r'') := take_digits r' in
      if is_empty d1 || is_empty d2 || negb (is_empty r'') then None
      else
        Some (inject_Z (digits_value 0 (d1 ++ d2)%string)
              / inject_Z (10 ^ Z.of_nat (String.length d2)))
  | _ => None
  end.

(** [len(set(words))]. *)
Definition count_unique (words : list string) : nat :=
  List.length (nodup string_dec words).

(** The block is a repetition loop: more than ten words, fewer than one
    distinct word in ten. *)
Definition is_repetition_loop (text : string) : bool :=
  let words := split text in
  (10 <? List.length words)%nat
  && Qltb (inject_Z (Z.of_nat (count_unique words))
           / inject_Z (Z.of_nat (List.length words))) 0.1.

(** The body of [for i in range(1, len(parts), 2)], on [parts[i:]].  The
    list [parts] has odd length, so [i + 1 < len(parts)] always holds. *)
Fixpoint timed_chunks (parts_from_i : list string) : list Chunk :=
  match parts_from_i with
  | part_i :: part_i1 :: tail =>
      let rest := timed_chunks tail in
      match float_of part_i with
      | None => rest
      | Some start_time =>
          let chunk_text := strip part_i1 in
          let end_time :=
            match tail with
            | part_i2 :: _ => float_of part_i2
            | [] => Some (start_time + 2.0)
            end in
          match end_time with
          | None => rest
          | Some end_time =>
              if Qle_bool end_time start_time then rest
              else if is_empty chunk_text || contains chunk_text ".,?!:"
              then rest
              else if (4 <? List.length (split chunk_text))%nat
                      && (count_unique (split chunk_text) =? 1)%nat
              then rest
              else {| timestamp := (start_time, end_time);
                      text := chunk_text |} :: rest
          end
      end
  | _ => []
  end.

(** The text left when every [<|...|>] token is deleted, stripped. *)
Definition clean_text (text : string) : string := strip (re_sub_tokens text).

(** The chunk appended when no timed chunk was produced. *)
Definition fallback_chunks (text : string) : list Chunk :=
  if negb (is_empty (clean_text text))
     && (String.length (clean_text text) <? 200)%nat
  then [ {| timestamp := (0.0, 2.0); text := clean_text text |} ]
  else [].

(** The dictionary [{'chunks': ..., 'text': ...}] the parser returns. *)
Record Parsed : Type := mkParsed {
  chunks : list Chunk;
  parsed_text : string
}.

Definition _parse_whisper_output (text : string) : Parsed :=
  if is_repetition_loop text then {| chunks := []; parsed_text := "" |}
  else
    let parts := re_split_timestamps text in
    let chunks := timed_chunks (tl parts) in
    match chunks with
    | [] => {| chunks := fallback_chunks text; parsed_text := text |}
    | _ :: _ => {| chunks := chunks; parsed_text := text |}
    end.

(** ** Stable sorting: [sorted(items, key=...)] *)

(** [x] goes before the first item whose key is not smaller than its own,
    hence before the items of equal key that followed it in the input. *)
Fixpoint insert_by {A : Type} (key : A -> Q) (x : A) (l : list A) : list A :=
  match l with
  | [] => [x]
  | y :: l' => if Qltb (key y) (key x) then y :: insert_by key x l' else x :: l
  end.

Fixpoint sorted_by {A : Type} (key : A -> Q) (l : list A) : list A :=
  match l with
  | [] => []
  | x :: l' => insert_by key x (sorted_by key l')
  end.

(** ** The annotation container of pyannote.core *)

(** [Segment(start, end)]. *)
Record Segment : Type := mkSegment {
  seg_start : Q;
  seg_end : Q
}.

(** A track as [itertracks(yield_label=True)] yields it, without the track
    name, which the service ignores. *)
Definition Track : Type := (Segment * string)%type.

Definition track_start (t : Track) : Q := seg_start (fst t).
Definition track_end (t : Track) : Q := seg_end (fst t).
Definition track_label (t : Track) : string := snd t.

(** A segment is falsy when it is not longer than the library's precision
    of one microsecond. *)
Definition SEGMENT_PRECISION : Q := 1e-6.

Definition segment_nonempty (s : Segment) : bool :=
  Qltb SEGMENT_PRECISION (seg_end s - seg_start s).

(** Segments are ordered by start, then by end, and equal by value. *)
Definition segment_eqb (a b : Segment) : bool :=
  Qeq_bool (seg_start a) (seg_start b) && Qeq_bool (seg_end a) (seg_end b).

Definition segment_ltb (a b : Segment) : bool :=
  Qltb (seg_start a) (seg_start b)
  || Qeq_bool (seg_start a) (seg_start b) && Qltb (seg_end a) (seg_end b).

(** An [Annotation] all of whose tracks are named ["_"], as the smoother
    builds it: a dictionary sorted by segment, one label per segment. *)
Definition Annotation : Type := list Track.

Fixpoint annotation_insert (segment : Segment) (label : string)
    (a : Annotation) : Annotation :=
  match a with
  | [] => [(segment, label)]
  | (s, l) :: a' =>
      if segment_eqb segment s then (s, label) :: a'
      else if segment_ltb segment s then (segment, label) :: a
      else (s, l) :: annotation_insert segment label a'
  end.

(** [annotation[segment] = label]: an empty segment is not added, a segment
    already present gets the new label. *)
Definition setitem (a : Annotation) (segment : Segment) (label : string)
  : Annotation :=
  if segment_nonempty segment then annotation_insert segment label a else a.

(** [annotation.itertracks(yield_label=True)]: the tracks in the order of
    their segments. *)
Definition itertracks (a : Annotation) : list Track := a.

(** ** Diarization smoother: [_post_process_diarization] *)

(** The state of the loop: the annotation under construction, the current
    segment and the current label. *)
Definition SmoothState : Type := (Annotation * Segment * string)%type.

Definition smooth_step (st : SmoothState) (next : Track) : SmoothState :=
  let '(new_annotation, current_segment, current_label) := st in
  let '(next_segment, next_label) := next in
  let gap := seg_start next_segment - seg_end current_segment in
  if String.eqb next_label current_label && Qltb gap 1.0 then
    (new_annotation,
     mkSegment (seg_start current_segment) (seg_end next_segment),
     current_label)
  else
    (setitem new_annotation current_segment current_label,
     next_segment, next_label).

(** [diarization] is given by the tracks it yields. *)
Definition _post_process_diarization (diarization : list Track)
  : list Track :=
  let sorted_segments := sorted_by track_start diarization in
  match sorted_segments with
  | [] => diarization
  | (first_segment, first_label) :: rest =>
      let '(new_annotation, current_segment, current_label) :=
        fold_left smooth_step rest ([], first_segment, first_label) in
      itertracks (setitem new_annotation current_segment current_label)
  end.

(** ** Alignment: [_align_whisper_with_diarization] *)

(** A speaker segment [{'start', 'end', 'speaker'}]. *)
Record SpeakerSegment : Type := mkSpeakerSegment {
  spk_start : Q;
  spk_end : Q;
  spk_speaker : string
}.

(** An aligned segment [{'start', 'end', 'speaker', 'text'}]. *)
Record Aligned : Type := mkAligned {
  r_start : Q;
  r_end : Q;
  r_speaker : string;
  r_text : string
}.

(** [overlap_stats]: a dictionary from speaker to accumulated overlap, in
    the order in which the speakers were first entered. *)
Definition OverlapStats : Type := list (string * Q).

(** [stats[speaker] = stats.get(speaker, 0) + overlap_dur]. *)
Fixpoint stats_add (speaker : string) (overlap_dur : Q) (stats : OverlapStats)
  : OverlapStats :=
  match stats with
  | [] => [(speaker, 0 + overlap_dur)]
  | (k, v) :: stats' =>
      if String.eqb k speaker then (k, v + overlap_dur) :: stats'
      else (k, v) :: stats_add speaker overlap_dur stats'
  end.

Definition overlap_step (w_start w_end : Q) (stats : OverlapStats)
    (spk_seg : SpeakerSegment) : OverlapStats :=
  let overlap_start := py_max w_start (spk_start spk_seg) in
  let overlap_end := py_min w_end (spk_end spk_seg) in
  let overlap_dur := py_max 0 (overlap_end - overlap_start) in
  if Qltb 0 overlap_dur then stats_add (spk_speaker spk_seg) overlap_dur stats
  else stats.

(** [max(stats, key=stats.get)] from a first candidate: a later key wins
    only with a strictly larger value. *)
Fixpoint max_key (best : string) (best_value : Q) (stats : OverlapStats)
  : string :=
  match stats with
  | [] => best
  | (k, v) :: stats' =>
      if Qltb best_value v then max_key k v stats'
      else max_key best best_value stats'
  end.

(** ** [_find_nearest_speaker] *)

(** [min_distance] starts at infinity, which is [None]. *)
Definition nearest_step (mid_point : Q) (st : option Q * string)
    (segment : SpeakerSegment) : option Q * string :=
  let '(min_distance, best_speaker) := st in
  let segment_mid := (spk_start segment + spk_end segment) / 2 in
  let distance := Qabs (mid_point - segment_mid) in
  match min_distance with
  | None => (Some distance, spk_speaker segment)
  | Some m =>
      if Qltb distance m then (Some distance, spk_speaker segment)
      else (min_distance, best_speaker)
  end.

Definition _find_nearest_speaker (start end_ : Q)
    (speaker_segments : list SpeakerSegment) : string :=
  let mid_point := (start + end_) / 2 in
  snd (fold_left (nearest_step mid_point) speaker_segments
         (None, "SPEAKER_00")).

Definition align_chunk (speaker_segments : list SpeakerSegment)
    (results : list Aligned) (chunk : Chunk) : list Aligned :=
  let w_start := ts0 chunk in
  let w_end := ts1 chunk in
  let w_text := text chunk in
  let w_duration := w_end - w_start in
  if Qle_bool w_duration 0 then results
  else
    let overlap_stats :=
      fold_left (overlap_step w_start w_end) speaker_segments [] in
    match overlap_stats with
    | [] =>
        let nearest_speaker :=
          _find_nearest_speaker w_start w_end speaker_segments in
        results ++ [mkAligned w_start w_end nearest_speaker w_text]
    | (k, v) :: stats' =>
        let dominant_speaker := max_key k v stats' in
        results ++ [mkAligned w_start w_end dominant_speaker w_text]
    end.

Definition _align_whisper_with_diarization (whisper_chunks : list Chunk)
    (speaker_segments : list SpeakerSegment) : list Aligned :=
  fold_left (align_chunk speaker_segments) whisper_chunks [].

(** ** Redundancy remover: [_remove_redundant_segments] *)

(** [str.lower] on one character: A..Z and the capitals of Latin-1. *)
Definition lower_char (c : ascii) : ascii :=
  let n := nat_of_ascii c in
  if ((65 <=? n) && (n <=? 90)
      || (192 <=? n) && (n <=? 222) && negb (n =? 215))%nat
  then ascii_of_nat (n + 32) else c.

Fixpoint lower (s : string) : string :=
  match s with
  | EmptyString => ""
  | String c s' => String (lower_char c) (lower s')
  end.

(** [set(u).issubset(set(v))] on lists of words. *)
Definition issubset (u v : list string) : bool :=
  forallb (fun w => existsb (String.eqb w) v) u.

Definition set_start (current : Aligned) (start : Q) : Aligned :=
  {| r_start := start; r_end := r_end current;
     r_speaker := r_speaker current; r_text := r_text current |}.

(** The overlap of [prev] and [current], as the loop computes it. *)
Definition overlap_duration (prev current : Aligned) : Q :=
  let overlap_start := py_max (r_start prev) (r_start current) in
  let overlap_end := py_min (r_end prev) (r_end current) in
  py_max 0 (overlap_end - overlap_start).

(** RULE 1: at least 80% of [current] lies in [prev] and its words all
    occur in [prev]. *)
Definition is_contained_duplicate (prev current : Aligned) : bool :=
  let current_duration := r_end current - r_start current in
  Qltb 0 current_duration
  && Qltb 0.8 (overlap_duration prev current / current_duration)
  && issubset (split (lower (r_text current))) (split (lower (r_text prev))).

(** RULE 2: a start inside [prev] with less than a second of overlap is
    moved to the end of [prev]. *)
Definition fix_drift (prev current : Aligned) : Aligned :=
  if Qltb (r_start current) (r_end prev) then
    if Qltb (overlap_duration prev current) 1.0
    then set_start current (r_end prev)
    else current
  else current.

(** One iteration of [for i in range(1, len(segments))]; [cleaned] is
    never empty inside the loop. *)
Definition clean_segment (cleaned : list Aligned) (current : Aligned)
  : list Aligned :=
  let prev := last cleaned current in
  if is_contained_duplicate prev current then cleaned
  else
    let current := fix_drift prev current in
    if Qltb 0.1 (r_end current - r_start current) then cleaned ++ [current]
    else cleaned.

Definition _remove_redundant_segments (segments : list Aligned)
  : list Aligned :=
  match segments with
  | [] => []
  | first :: rest => fold_left clean_segment rest [first]
  end.

(** ** Turn merger: [_merge_consecutive_speakers] *)

(** [current] after [next_seg] was folded into it. *)
Definition absorb (current next_seg : Aligned) : Aligned :=
  {| r_start := r_start current;
     r_end := py_max (r_end current) (r_end next_seg);
     r_speaker := r_speaker current;
     r_text := (r_text current ++ " " ++ r_text next_seg)%string |}.

(** The state of the loop is [(merged, current)]. *)
Definition merge_turn (st : list Aligned * Aligned) (next_seg : Aligned)
  : list Aligned * Aligned :=
  let '(merged, current) := st in
  if String.eqb (r_speaker current) (r_speaker next_seg) then
    let gap := r_start next_seg - r_end current in
    if Qltb gap 2.0 then (merged, absorb current next_seg)
    else (merged ++ [current], next_seg)
  else (merged ++ [current], next_seg).

Definition _merge_consecutive_speakers (results : list Aligned)
  : list Aligned :=
  match results with
  | [] => results
  | first :: rest =>
      let '(merged, current) := fold_left merge_turn rest ([], first) in
      merged ++ [current]
  end.

(** ** The assembly in [process_with_speakers] *)

(** The returned dictionaries.  The key [speaker_total_time], added from
    the statistics of the diarization library, is left out. *)
Record Formatted : Type := mkFormatted {
  f_text : string;
  f_start : Q;
  f_end : Q;
  f_speaker_id : string;
  f_speaker_label : string;
  f_is_overlap : bool
}.

Section Assembly.

(** What the diarization library computes: the overlap regions of an
    annotation ([get_overlap]), and the presentation of a label, which
    goes through [int] and an f-string. *)
Variable get_overlap : list Track -> list Segment.
Variable speaker_label_of : string -> string.

Definition to_speaker_segment (t : Track) : SpeakerSegment :=
  {| spk_start := track_start t; spk_end := track_end t;
     spk_speaker := track_label t |}.

Definition format_result (overlap_segments : list Segment)
    (result : Aligned) : Formatted :=
  {| f_text := r_text result;
     f_start := r_start result;
     f_end := r_end result;
     f_speaker_id := r_speaker result;
     f_speaker_label := speaker_label_of (r_speaker result);
     f_is_overlap :=
       existsb (fun overlap =>
                  Qltb (r_start result) (seg_end overlap)
                  && Qltb (seg_start overlap) (r_end result))
               overlap_segments |}.

(** Steps 2 to 8 of [process_with_speakers]: [all_chunks] are the timed
    chunks collected from the decoded windows, [raw_annotation] the
    tracks of the diarization. *)
Definition process_with_speakers (all_chunks : list Chunk)
    (raw_annotation : list Track) : list Formatted :=
  let clean_diarization := _post_process_diarization raw_annotation in
  let overlap_segments := get_overlap clean_diarization in
  let transcription_chunks := _merge_overlapping_chunks all_chunks in
  let speaker_segments :=
    map to_speaker_segment (itertracks clean_diarization) in
  let results :=
    _align_whisper_with_diarization transcription_chunks speaker_segments in
  let results := sorted_by r_start results in
  let results := _remove_redundant_segments results in
  let results := _merge_consecutive_speakers results in
  map (format_result overlap_segments) results.

End Assembly.

(** ** The loops as recursive functions

    Each loop of the source only ever touches the last element of the list
    it builds.  The functions below produce the same lists element by
    element; the lemmas [fold_merge_chunk], [fold_clean_segment],
    [fold_merge_turn] and [fold_smooth_step] relate them to the loops. *)

(** The guard of the stitch in [merge_chunk]. *)
Definition stitches (prev current : Chunk) : bool :=
  Qltb (ts0 current) (ts1 prev)
  && Qltb ((ts1 prev - ts0 prev) * 0.5) (ts1 prev - ts0 current)
  && boundary_words_match prev current.

Fixpoint merge_from (prev : Chunk) (rest : list Chunk) : list Chunk :=
  match rest with
  | [] => [prev]
  | current :: rest' =>
      if stitches prev current then merge_from (stitched prev current) rest'
      else prev :: merge_from current rest'
  end.

Fixpoint clean_from (prev : Aligned) (rest : list Aligned) : list Aligned :=
  match rest with
  | [] => [prev]
  | current :: rest' =>
      if is_contained_duplicate prev current then clean_from prev rest'
      else if Qltb 0.1 (r_end (fix_drift prev current)
                        - r_start (fix_drift prev current))
      then prev :: clean_from (fix_drift prev current) rest'
      else clean_from prev rest'
  end.

(** The guard of the merge in [merge_turn]. *)
Definition folds (current next_seg : Aligned) : bool :=
  String.eqb (r_speaker current) (r_speaker next_seg)
  && Qltb (r_start next_seg - r_end current) 2.0.

Fixpoint turns_from (current : Aligned) (rest : list Aligned)
  : list Aligned :=
  match rest with
  | [] => [current]
  | next_seg :: rest' =>
      if folds current next_seg then turns_from (absorb current next_seg) rest'
      else current :: turns_from next_seg rest'
  end.

(** The chunks the alignment appends for one chunk: none or one. *)
Definition aligned_of (speaker_segments : list SpeakerSegment)
    (chunk : Chunk) : list Aligned :=
  align_chunk speaker_segments [] chunk.

(** Filling an annotation with a list of tracks, in their order. *)
Definition annotation_of (tracks : list Track) (a : Annotation)
  : Annotation :=
  fold_left (fun a t => setitem a (fst t) (snd t)) tracks a.

(** ** The smoother as the specification words it

    Step 1 sorts by start.  Step 2 walks the sorted list and merges the
    next interval into the current one when both carry the same label and
    [gap = next.start - current.end < 1.0], extending the current end to
    [next.end]; otherwise the current interval is final and the next one
    becomes current. *)

(** The guard of the merge. *)
Definition merges (current next : Track) : bool :=
  String.eqb (track_label next) (track_label current)
  && Qltb (track_start next - track_end current) 1.0.

Fixpoint spec_merge_adjacent (current : Track) (rest : list Track)
  : list Track :=
  match rest with
  | [] => [current]
  | next :: rest' =>
      if merges current next then
        spec_merge_adjacent
          (mkSegment (track_start current) (track_end next),
           track_label current) rest'
      else current :: spec_merge_adjacent next rest'
  end.

Definition spec_smooth (intervals : list Track) : list Track :=
  match sorted_by track_start intervals with
  | [] => []
  | first :: rest => spec_merge_adjacent first rest
  end.

(** ** Durations *)

Definition chunk_duration (c : Chunk) : Q := ts1 c - ts0 c.
Definition duration (s : Aligned) : Q := r_end s - r_start s.

(** The sum of [dur] over a list. *)
Fixpoint total {A : Type} (dur : A -> Q) (l : list A) : Q :=
  match l with
  | [] => 0
  | x :: l' => dur x + total dur l'
  end.


(** ** Predicates and inputs used in the statements *)

(** The two chunks of Scenario 1. *)
Definition scenario1_prev : Chunk := mkChunk (0, 10) "hello world how are you".
Definition scenario1_cur : Chunk := mkChunk (8, 18) "how are you today friend".

(** [R] holds of every two items that follow each other in [l]. *)
Inductive chain {A : Type} (R : A -> A -> Prop) : list A -> Prop :=
| chain_nil : chain R []
| chain_one : forall x, chain R [x]
| chain_cons : forall x y l, R x y -> chain R (y :: l) -> chain R (x :: y :: l).

(** Two segments that the turn merger would not fold. *)
Definition apart (a b : Aligned) : Prop :=
  r_speaker a = r_speaker b -> 2.0 <= r_start b - r_end a.

(** Three segments of one speaker; the second is folded into the first,
    the third starts 2.5 seconds after the fold ends. *)
Definition three_segments : list Aligned :=
  [mkAligned 0 1 "SPEAKER_00" "a"; mkAligned 2 3 "SPEAKER_00" "b";
   mkAligned 5.5 6 "SPEAKER_00" "c"].


(** Two consecutive segments as the redundancy remover leaves them: the
    second starts when the first has ended, or they overlap by a second or
    more. *)
Definition settled (a b : Aligned) : Prop :=
  r_end a <= r_start b \/ 1.0 <= overlap_duration a b.

(** Two consecutive formatted segments of one speaker are 2.0 seconds
    apart. *)
Definition f_apart (a b : Formatted) : Prop :=
  f_speaker_id a = f_speaker_id b -> f_end a + 2.0 <= f_start b.

(** No overlap regions, labels shown as they are. *)
Definition no_overlap (_ : list Track) : list Segment := [].
Definition plain_label (speaker_id : string) : string := speaker_id.

Definition trk (start end_ : Q) (label : string) : Track :=
  (mkSegment start end_, label).

(** Two chunks that overlap by four seconds, spoken by two speakers. *)
Definition crossing_chunks : list Chunk :=
  [mkChunk (0, 10) "a b"; mkChunk (6, 16) "c d"].
Definition crossing_tracks : list Track :=
  [trk 0 7 "SPEAKER_00"; trk 8 15 "SPEAKER_01"].


Definition weight (s : Aligned) : Q := duration s + 2.


(** Two chunks of one speaker, three seconds apart. *)
Definition apart_chunks : list Chunk :=
  [mkChunk (0, 1) "a"; mkChunk (4, 5) "b"].
Definition apart_tracks : list Track := [trk 0 6 "SPEAKER_00"].

(** [a] starts before [b]; [a] does not start after [b]. *)
Definition earlier (a b : Track) : Prop := track_start a < track_start b.
Definition not_later (a b : Track) : Prop := track_start a <= track_start b.

(** Two intervals the smoother does not merge: another label, or a gap of
    a second or more. *)
Definition separated (a b : Track) : Prop :=
  track_label b = track_label a -> 1.0 <= track_start b - track_end a.

(** [t] runs from the start of an interval of [d] to the end of an
    interval of [d], both of the label of [t]. *)
Definition from_tracks (d : list Track) (t : Track) : Prop :=
  exists first last,
    In first d /\ In last d
    /\ track_label first = track_label t /\ track_label last = track_label t
    /\ track_start t = track_start first /\ track_end t = track_end last.

(** No two intervals of [d] start at the same time. *)
Definition distinct_starts (d : list Track) : Prop :=
  ForallOrdPairs (fun a b => ~ track_start a == track_start b) d.

Definition nonempty_track (t : Track) : Prop :=
  segment_nonempty (fst t) = true.

(** The intervals of Scenario 2, in order and out of order. *)
Definition scenario2 : list Track :=
  [trk 0 5 "A"; trk 5.5 9 "A"; trk 9 15 "B"].
Definition scenario2_unsorted : list Track :=
  [trk 9 15 "B"; trk 5.5 9 "A"; trk 0 5 "A"].

(** Two speakers that start together; the second interval of B ends
    inside the first. *)
Definition tied_tracks : list Track :=
  [trk 0 3 "A"; trk 0 5 "B"; trk 0.5 1 "B"; trk 3.5 4 "A"].

(** Three intervals with distinct starts. *)
Definition spaced_tracks : list Track :=
  [trk 0 5 "A"; trk 5.5 9 "A"; trk 9 15 "B"; trk 16 17 "B"].

(** No timestamp marker was found in the block: [re.split] returns the
    block in one piece. *)
Definition no_marker_parsed (text : string) : Prop :=
  List.length (re_split_timestamps text) = 1%nat.

(** The timed chunks the loop of the parser collects. *)
Definition parsed_chunks (text : string) : list Chunk :=
  timed_chunks (tl (re_split_timestamps text)).

(** The synthetic chunk of the fallback. *)
Definition synthetic_chunk (text : string) : Chunk :=
  {| timestamp := (0.0, 2.0); text := clean_text text |}.

(** A chunk as the loop of the parser accepts it. *)
Definition well_timed (c : Chunk) : Prop :=
  ts0 c < ts1 c /\ text c <> "".

(** Decoded blocks: a loop of one word, a lone full stop between two
    markers, plain words without markers, two timed sentences. *)
Definition loop_block : string := "hi hi hi hi hi hi hi hi hi hi hi".
Definition stop_block : string := "<|0.00|>.<|1.00|>".
Definition plain_block : string := "hello there".
Definition timed_block : string := "<|0.00|> Merhaba <|2.50|><|2.50|> nas<|4.00|>".

(** ** Further predicates *)

(** [b] overlaps its predecessor [a] by no more than half the duration of
    [a] (or not at all): the chunk merger does not look at its words. *)
Definition lightly_overlapping (a b : Chunk) : Prop :=
  ts1 a <= ts0 b \/ ts1 a - ts0 b <= (ts1 a - ts0 a) * 0.5.

(** Three chunks of which the second starts a second before the first
    ends. *)
Definition light_chunks : list Chunk :=
  [mkChunk (0, 10) "a b c"; mkChunk (9, 20) "b c d"; mkChunk (20, 30) "e"].

(** The overlap of the chunk [(w_start, w_end)] with one speaker
    segment, as [overlap_step] computes it. *)
Definition overlap_with (w_start w_end : Q) (seg : SpeakerSegment) : Q :=
  py_max 0 (py_min w_end (spk_end seg) - py_max w_start (spk_start seg)).

(** The total overlap of the chunk with the segments of one speaker. *)
Fixpoint speaker_overlap (w_start w_end : Q) (speaker : string)
    (segs : list SpeakerSegment) : Q :=
  match segs with
  | [] => 0
  | seg :: segs' =>
      (if String.eqb (spk_speaker seg) speaker
       then overlap_with w_start w_end seg else 0)
      + speaker_overlap w_start w_end speaker segs'
  end.

(** The distance between the midpoint of [(start, end_)] and the midpoint
    of a speaker segment. *)
Definition mid_distance (start end_ : Q) (seg : SpeakerSegment) : Q :=
  Qabs ((start + end_) / 2 - (spk_start seg + spk_end seg) / 2).

(** The speaker the alignment gives to a chunk of positive duration. *)
Definition assigned_speaker (w_start w_end : Q)
    (speaker_segments : list SpeakerSegment) : string :=
  match fold_left (overlap_step w_start w_end) speaker_segments [] with
  | [] => _find_nearest_speaker w_start w_end speaker_segments
  | (k, v) :: stats' => max_key k v stats'
  end.

(** What [overlap_stats] holds when [f] gives the overlap accumulated so
    far for each speaker: one entry per speaker with a positive overlap. *)
Definition stats_inv (f : string -> Q) (stats : OverlapStats) : Prop :=
  NoDup (map fst stats)
  /\ (forall k v, In (k, v) stats -> v == f k /\ 0 < v)
  /\ (forall k, ~ In k (map fst stats) -> f k == 0).

(** Two speakers around a chunk. *)
Definition two_speakers : list SpeakerSegment :=
  [mkSpeakerSegment 0 3 "A"; mkSpeakerSegment 3 10 "B";
   mkSpeakerSegment 10 11 "A"].

(** [s] is the input segment [s0] with a start that is not earlier. *)
Definition trimmed_from (s0 s : Aligned) : Prop :=
  r_end s = r_end s0 /\ r_speaker s = r_speaker s0 /\ r_text s = r_text s0
  /\ r_start s0 <= r_start s.

(** Two consecutive segments the redundancy remover accepts as they are. *)
Definition accepted_after (prev current : Aligned) : Prop :=
  is_contained_duplicate prev current = false
  /\ fix_drift prev current = current
  /\ 0.1 < r_end current - r_start current.

(** The segment of [a] comes strictly before the segment of [b]. *)
Definition segment_before (a b : Track) : Prop :=
  segment_ltb (fst a) (fst b) = true.

(** ** Chunked transcription: [transcribe_audio_chunked] *)

(** [self.chunk_length_s] and [self.stride_length_s]. *)
Definition chunk_length_s : Z := 20.
Definition stride_length_s : Z := 4.

(** A timed chunk of a window, moved to the time of the whole audio. *)
Definition adjust (chunk_start_time : Q) (sub_chunk : Chunk) : Chunk :=
  {| timestamp := (chunk_start_time + ts0 sub_chunk,
                   chunk_start_time + ts1 sub_chunk);
     text := text sub_chunk |}.

Section Chunked.

(** The sample rate [_load_audio] returns (16000 in the service), and what
    the Whisper model and [batch_decode] return for the samples
    [audio_array[offset:end]]. *)
Variable sample_rate : Z.
Variable decode : Z -> Z -> string.

Definition chunk_samples : Z := chunk_length_s * sample_rate.
Definition stride_samples : Z := stride_length_s * sample_rate.

(** The chunks one window contributes to [all_chunks]. *)
Definition window_chunks (offset end_ : Z) : list Chunk :=
  let chunk_start_time := inject_Z offset / inject_Z sample_rate in
  let chunk_result := _parse_whisper_output (decode offset end_) in
  map (adjust chunk_start_time) (chunks chunk_result).

(** The loop [while offset < len(audio_array)], for at most [fuel]
    iterations; [len] is the number of samples. *)
Fixpoint transcribe_loop (fuel : nat) (len offset : Z)
    (all_chunks : list Chunk) : list Chunk :=
  match fuel with
  | O => all_chunks
  | S fuel' =>
      if (offset <? len)%Z then
        let end_ := Z.min (offset + chunk_samples) len in
        if (end_ - offset <? sample_rate)%Z then all_chunks
        else
          transcribe_loop fuel' len
            (offset + (chunk_samples - stride_samples))
            (all_chunks ++ window_chunks offset end_)
      else all_chunks
  end.

(** The windows [(offset, end)] the loop decodes. *)
Fixpoint windows_from (fuel : nat) (len offset : Z) : list (Z * Z) :=
  match fuel with
  | O => []
  | S fuel' =>
      if (offset <? len)%Z then
        let end_ := Z.min (offset + chunk_samples) len in
        if (end_ - offset <? sample_rate)%Z then []
        else (offset, end_)
             :: windows_from fuel' len
                  (offset + (chunk_samples - stride_samples))
      else []
  end.

(** A number of iterations after which the loop has ended: the offset
    grows by [chunk_samples - stride_samples] in each. *)
Definition iterations (len : Z) : nat :=
  S (Z.to_nat (len / (chunk_samples - stride_samples))).

Definition windows (len : Z) : list (Z * Z) :=
  windows_from (iterations len) len 0.

(** The dictionary [{'chunks': ..., 'text': ...}] returned for an audio of
    [len] samples. *)
Definition transcribe_audio_chunked (len : Z) : Parsed :=
  let all_chunks := transcribe_loop (iterations len) len 0 [] in
  let all_chunks := _merge_overlapping_chunks all_chunks in
  {| chunks := all_chunks; parsed_text := join " " (map text all_chunks) |}.

End Chunked.

(** Two consecutive windows at the sample rate [sr]: the second starts
    sixteen seconds after the first and they share between one and four
    seconds. *)
Definition window_step (sr : Z) (w1 w2 : Z * Z) : Prop :=
  (fst w2 = fst w1 + 16 * sr
   /\ sr <= snd w1 - fst w2 <= 4 * sr)%Z.

(** A decoder that hears nothing but one timed word in every window. *)
Definition one_word (_ _ : Z) : string := "<|0.00|> evet<|1.50|>".

(** ** Diarization profiles: [analyze_audio_quality], [diarize_audio] *)

(** The parameters of one profile: [segmentation] and [clustering]. *)
Record ProfileParams : Type := mkProfileParams {
  seg_min_duration_off : Q;
  seg_threshold : Q;
  clu_method : string;
  clu_min_cluster_size : Z;
  clu_threshold : Q
}.

(** [self.diarization_profiles], in the order of the source. *)
Definition diarization_profiles : list (string * ProfileParams) :=
  [("high_quality", mkProfileParams 0.1 0.45 "centroid" 13 0.45);
   ("podcast_interview", mkProfileParams 0.15 0.50 "centroid" 15 0.35);
   ("noisy_meeting", mkProfileParams 0.15 0.50 "centroid" 16 0.35);
   ("aggressive", mkProfileParams 0.15 0.50 "centroid" 17 0.35)].

(** [d.get(key)] on a dictionary given by its items. *)
Fixpoint dict_get {V : Type} (d : list (string * V)) (key : string)
  : option V :=
  match d with
  | [] => None
  | (k, v) :: d' => if String.eqb k key then Some v else dict_get d' key
  end.

(** The profile [analyze_audio_quality] recommends for a signal-to-noise
    ratio in dB and a speech density. *)
Definition recommended_profile (snr speech_ratio : Q) : string :=
  if Qltb 20 snr && Qltb 0.6 speech_ratio then "high_quality"
  else if Qltb 15 snr && Qltb speech_ratio 0.4 then "podcast_interview"
  else if Qltb 0.7 speech_ratio then "aggressive"
  else "noisy_meeting".

(** The parameters [diarize_audio] uses: those of the profile, or those of
    ['high_quality'] for a name that is no profile; with ['auto'] the
    profile is the recommended one. *)
Definition diarization_params (profile : string) (snr speech_ratio : Q)
  : option ProfileParams :=
  let profile :=
    if String.eqb profile "auto" then recommended_profile snr speech_ratio
    else profile in
  match dict_get diarization_profiles profile with
  | Some params => Some params
  | None => dict_get diarization_profiles "high_quality"
  end.

(** A string without blank characters. *)
Fixpoint no_space (s : string) : bool :=
  match s with
  | EmptyString => true
  | String c s' => negb (is_space c) && no_space s'
  end.

(** A word: not empty, no blank character. *)
Definition is_word (w : string) : Prop := w <> "" /\ no_space w = true.

(** ** The label shown for a speaker, in [process_with_speakers] *)

(** [s.split(sep)[-1]]: what follows the last separator, all of [s]
    without one.  [piece] is the piece being read. *)
Fixpoint last_piece (sep : ascii) (piece s : string) : string :=
  match s with
  | EmptyString => piece
  | String c s' =>
      if Ascii.eqb c sep then last_piece sep "" s'
      else last_piece sep (piece ++ String c "")%string s'
  end.

Fixpoint all_digits (s : string) : bool :=
  match s with
  | EmptyString => true
  | String c s' => is_digit c && all_digits s'
  end.

(** The blanks [int] skips around a number: TAB..CR and space, and NEL and
    NBSP, which it reads as spaces.  The separators FS..US, blank for
    [str.strip], are not among them: [int] raises on them. *)
Definition is_int_space (c : ascii) : bool :=
  let n := nat_of_ascii c in
  ((9 <=? n) && (n <=? 13) || (n =? 32) || (n =? 133) || (n =? 160))%nat.

Fixpoint skip_int_space (s : string) : string :=
  match s with
  | EmptyString => ""
  | String c s' => if is_int_space c then skip_int_space s' else s
  end.

(** The run of digits and underscores at the head of [s]: the digits read
    and what follows the run; [None] when an underscore is doubled or ends
    the run.  [prev_underscore] tells that the character before was an
    underscore; an underscore at the head of the number is refused
    before the scan. *)
Fixpoint scan_digits (prev_underscore : bool) (s : string)
  : option (string * string) :=
  match s with
  | EmptyString => if prev_underscore then None else Some ("", "")
  | String c s' =>
      if is_digit c then
        match scan_digits false s' with
        | Some (d, r) => Some (String c d, r)
        | None => None
        end
      else if Ascii.eqb c "_" then
        if prev_underscore then None else scan_digits true s'
      else if prev_underscore then None
      else Some ("", s)
  end.

Definition leading_underscore (s : string) : bool :=
  match s with
  | EmptyString => false
  | String c _ => Ascii.eqb c "_"
  end.

(** The interpreter's limit on the conversions between [int] and [str]:
    a conversion of more than 640 digits and of more than
    [int_max_str_digits] digits raises [ValueError].  The setting,
    [sys.get_int_max_str_digits()], is 4300 unless the interpreter is
    configured otherwise, and [0] where there is no limit. *)
Definition str_digits_check_threshold : Z := 640.

Definition over_limit (int_max_str_digits digits : Z) : bool :=
  ((str_digits_check_threshold <? digits) && (0 <? int_max_str_digits)
   && (int_max_str_digits <? digits))%Z.

(** [int(s)]: blanks around the number are skipped, a sign may precede
    the digits, single underscores may separate digits; anything else,
    and a number of more digits than the limit allows, raises
    [ValueError] ([None]).  Leading zeros count as digits. *)
Definition py_int (int_max_str_digits : Z) (s : string) : option Z :=
  let s1 := skip_int_space s in
  let '(negative, s2) :=
    match s1 with
    | EmptyString => (false, s1)
    | String c r =>
        if Ascii.eqb c "+" then (false, r)
        else if Ascii.eqb c "-" then (true, r)
        else (false, s1)
    end in
  if leading_underscore s2 then None
  else
    match scan_digits false s2 with
    | None => None
    | Some (d, r) =>
        if is_empty d then None
        else if negb (is_empty (skip_int_space r)) then None
        else if over_limit int_max_str_digits
                  (Z.of_nat (String.length d)) then None
        else
          let n := digits_value 0 d in
          Some (if negative then (- n)%Z else n)
    end.

(** [str(n)], as the f-string calls it, raises [ValueError] when [n] has
    more decimal digits than the limit allows; [n] has more than [k]
    digits exactly when [10 ^ k <= |n|]. *)
Definition str_over_limit (int_max_str_digits n : Z) : bool :=
  ((10 ^ str_digits_check_threshold <=? Z.abs n) && (0 <? int_max_str_digits)
   && (10 ^ int_max_str_digits <=? Z.abs n))%Z.

(** The label: the text of [f"Konuşmacı {number}"], given by its number,
    or the speaker id as it is when the [try] block raised. *)
Inductive SpeakerLabel : Type :=
| Konusmaci (number : Z)
| Unchanged (speaker_id : string).

Definition speaker_label (int_max_str_digits : Z) (speaker_id : string)
  : SpeakerLabel :=
  match py_int int_max_str_digits (last_piece "_" "" speaker_id) with
  | Some speaker_num =>
      if str_over_limit int_max_str_digits (speaker_num + 1)
      then Unchanged speaker_id
      else Konusmaci (speaker_num + 1)
  | None => Unchanged speaker_id
  end.

(** [b] starts when [a] has ended and lasts more than a tenth of a
    second. *)
Definition follows_cleanly (a b : Aligned) : Prop :=
  r_end a <= r_start b /\ 0.1 < r_end b - r_start b.

(** Three segments one after the other. *)
Definition clean_timeline : list Aligned :=
  [mkAligned 0 2 "SPEAKER_00" "a"; mkAligned 2 2.5 "SPEAKER_01" "a";
   mkAligned 3 7 "SPEAKER_00" "b"].
(** ** Comparisons *)

Lemma Qltb_lt (a b : Q) : Qltb a b = true <-> a < b.
Proof.
  unfold Qltb. rewrite negb_true_iff. split; intro H.
  - apply Qnot_le_lt. intro Hle. apply Qle_bool_iff in Hle. congruence.
  - destruct (Qle_bool b a) eqn:E; [|reflexivity].
    apply Qle_bool_iff in E. exfalso. apply (Qlt_not_le _ _ H E).
Qed.

Lemma Qltb_ge (a b : Q) : Qltb a b = false <-> b <= a.
Proof.
  unfold Qltb. rewrite negb_false_iff. apply Qle_bool_iff.
Qed.

Lemma Qle_bool_gt (a b : Q) : Qle_bool a b = false <-> b < a.
Proof.
  rewrite <- Qltb_lt. unfold Qltb. destruct (Qle_bool a b); simpl; intuition congruence.
Qed.

(** Case analysis on a comparison [Qltb a b] occurring in the goal. *)
Ltac case_Qltb a b H :=
  destruct (Qltb a b) eqn:H;
  [apply Qltb_lt in H | apply Qltb_ge in H].

Lemma py_max_cases (a b : Q) :
  (a < b /\ py_max a b = b) \/ (b <= a /\ py_max a b = a).
Proof.
  unfold py_max. case_Qltb a b H; auto.
Qed.

(** ** The loops and their recursive forms *)

Lemma last_snoc {A : Type} (l : list A) (x d : A) : last (l ++ [x]) d = x.
Proof. apply last_last. Qed.

Lemma merge_chunk_snoc (acc : list Chunk) (prev current : Chunk) :
  merge_chunk (acc ++ [prev]) current =
  if stitches prev current then acc ++ [stitched prev current]
  else acc ++ [prev; current].
Proof.
  unfold merge_chunk, stitches. rewrite last_snoc, removelast_last.
  rewrite <- app_assoc. simpl.
  destruct (Qltb (ts0 current) (ts1 prev)); simpl; [|reflexivity].
  destruct (Qltb ((ts1 prev - ts0 prev) * 0.5) (ts1 prev - ts0 current));
    simpl; [|reflexivity].
  destruct (boundary_words_match prev current); reflexivity.
Qed.

Lemma fold_merge_chunk (rest : list Chunk) :
  forall acc prev,
    fold_left merge_chunk rest (acc ++ [prev]) = acc ++ merge_from prev rest.
Proof.
  induction rest as [|current rest IH]; intros acc prev; simpl.
  - reflexivity.
  - rewrite merge_chunk_snoc. destruct (stitches prev current).
    + apply IH.
    + change (acc ++ [prev; current]) with (acc ++ [prev] ++ [current]).
      rewrite app_assoc, IH, <- app_assoc. reflexivity.
Qed.

Lemma merge_overlapping_chunks_cons (first : Chunk) (rest : list Chunk) :
  _merge_overlapping_chunks (first :: rest) = merge_from first rest.
Proof.
  unfold _merge_overlapping_chunks.
  apply (fold_merge_chunk rest [] first).
Qed.

Lemma clean_segment_snoc (acc : list Aligned) (prev current : Aligned) :
  clean_segment (acc ++ [prev]) current =
  if is_contained_duplicate prev current then acc ++ [prev]
  else if Qltb 0.1 (r_end (fix_drift prev current)
                    - r_start (fix_drift prev current))
  then acc ++ [prev; fix_drift prev current]
  else acc ++ [prev].
Proof.
  unfold clean_segment. rewrite last_snoc.
  destruct (is_contained_duplicate prev current); [reflexivity|].
  destruct (Qltb _ _); [|reflexivity].
  rewrite <- app_assoc. reflexivity.
Qed.

Lemma fold_clean_segment (rest : list Aligned) :
  forall acc prev,
    fold_left clean_segment rest (acc ++ [prev]) = acc ++ clean_from prev rest.
Proof.
  induction rest as [|current rest IH]; intros acc prev; simpl.
  - reflexivity.
  - rewrite clean_segment_snoc.
    destruct (is_contained_duplicate prev current); [apply IH|].
    destruct (Qltb _ _); [|apply IH].
    change (acc ++ [prev; fix_drift prev current])
      with (acc ++ [prev] ++ [fix_drift prev current]).
    rewrite app_assoc, IH, <- app_assoc. reflexivity.
Qed.

Lemma remove_redundant_segments_cons (first : Aligned) (rest : list Aligned) :
  _remove_redundant_segments (first :: rest) = clean_from first rest.
Proof.
  unfold _remove_redundant_segments.
  apply (fold_clean_segment rest [] first).
Qed.

Lemma fold_merge_turn (rest : list Aligned) :
  forall merged current,
    (let '(merged', current') := fold_left merge_turn rest (merged, current) in
     merged' ++ [current']) = merged ++ turns_from current rest.
Proof.
  induction rest as [|next_seg rest IH]; intros merged current; simpl.
  - reflexivity.
  - unfold folds.
    destruct (String.eqb (r_speaker current) (r_speaker next_seg)); simpl.
    + destruct (Qltb (r_start next_seg - r_end current) 2.0).
      * apply IH.
      * rewrite IH, <- app_assoc. reflexivity.
    + rewrite IH, <- app_assoc. reflexivity.
Qed.

Lemma merge_consecutive_speakers_cons (first : Aligned) (rest : list Aligned) :
  _merge_consecutive_speakers (first :: rest) = turns_from first rest.
Proof.
  unfold _merge_consecutive_speakers.
  apply (fold_merge_turn rest [] first).
Qed.

Lemma fold_smooth_step (rest : list Track) :
  forall a segment label,
    (let '(a', segment', label') :=
       fold_left smooth_step rest (a, segment, label) in
     setitem a' segment' label')
    = annotation_of (spec_merge_adjacent (segment, label) rest) a.
Proof.
  induction rest as [|[next_segment next_label] rest IH];
    intros a segment label; simpl.
  - reflexivity.
  - unfold merges, track_label, track_start, track_end. simpl.
    destruct (String.eqb next_label label
              && Qltb (seg_start next_segment - seg_end segment) 1.0).
    + apply IH.
    + rewrite IH. reflexivity.
Qed.

Lemma post_process_diarization_spec (diarization : list Track) :
  _post_process_diarization diarization =
  itertracks (annotation_of (spec_smooth diarization) []).
Proof.
  unfold _post_process_diarization, spec_smooth.
  destruct (sorted_by track_start diarization) as [|[s l] rest] eqn:E.
  - destruct diarization as [|x d]; [reflexivity|].
    simpl in E. destruct (sorted_by track_start d); simpl in E.
    + discriminate.
    + destruct (Qltb _ _); discriminate.
  - apply (fold_smooth_step rest [] s l).
Qed.

(** ** The scenarios of the specification on the embedding *)

(** Scenario 3: a chunk inside the interval of A is aligned to A. *)
Example scenario3_dominant_speaker :
  _align_whisper_with_diarization [mkChunk (2, 4) "x"]
    [mkSpeakerSegment 0 6 "A"; mkSpeakerSegment 6 10 "B"]
  = [mkAligned 2 4 "A" "x"].
Proof. reflexivity. Qed.

(** Scenario 4: a chunk in a gap goes to the interval whose midpoint is
    nearest, 27.5 at distance 7 against 12.5 at distance 8. *)
Example scenario4_nearest_speaker :
  _align_whisper_with_diarization [mkChunk (20, 21) "y"]
    [mkSpeakerSegment 10 15 "A"; mkSpeakerSegment 25 30 "B"]
  = [mkAligned 20 21 "B" "y"].
Proof. reflexivity. Qed.

(** Scenario 5: eleven times the same word is discarded. *)
Example scenario5_repetition_loop :
  _parse_whisper_output loop_block = {| chunks := []; parsed_text := "" |}.
Proof. reflexivity. Qed.

(** A decoded block with two timed sentences. *)
Example timed_block_parsed :
  chunks (_parse_whisper_output timed_block)
  = [mkChunk (0.00, 2.50) "Merhaba"; mkChunk (2.50, 4.00) "nas"].
Proof. reflexivity. Qed.

(** The example of the docstring of the redundancy remover: the second
    segment is moved to the end of the first. *)
Example docstring_drift_fixed :
  _remove_redundant_segments
    [mkAligned 43.90 48.68 "SPEAKER_00" "...what will happen?";
     mkAligned 48.00 50.00 "SPEAKER_00" "what will happen"]
  = [mkAligned 43.90 48.68 "SPEAKER_00" "...what will happen?";
     mkAligned 48.68 50.00 "SPEAKER_00" "what will happen"].
Proof. reflexivity. Qed.

(** ** Chunk merger *)

Lemma words_eqb_eq (u : list string) :
  forall v, words_eqb u v = true <-> u = v.
Proof.
  induction u as [|a u IH]; intros [|b v]; simpl; split; intro H;
    try reflexivity; try discriminate.
  - apply andb_true_iff in H. destruct H as [Hab Huv].
    apply String.eqb_eq in Hab. apply IH in Huv. congruence.
  - injection H as -> ->. rewrite String.eqb_refl. simpl. apply IH. reflexivity.
Qed.

(** With [k = min(5, len(l))] the slice [l[-k:]] is the last [k] items of
    [l], also for [k = 0], where [l] is empty. *)
Lemma slice_last_min {A : Type} (l : list A) :
  slice_last (Nat.min 5 (List.length l)) l =
  skipn (List.length l - Nat.min 5 (List.length l)) l.
Proof.
  unfold slice_last.
  destruct (Nat.min 5 (List.length l) =? 0)%nat eqn:E; [|reflexivity].
  apply Nat.eqb_eq in E. destruct l as [|x l]; [reflexivity|].
  simpl in E. lia.
Qed.

Lemma merge_overlapping_chunks_snoc (chunks : list Chunk) (current : Chunk) :
  chunks <> [] ->
  _merge_overlapping_chunks (chunks ++ [current]) =
  merge_chunk (_merge_overlapping_chunks chunks) current.
Proof.
  destruct chunks as [|first rest]; [congruence|]. intros _.
  simpl. apply fold_left_app.
Qed.

Lemma merged_nonempty (chunks acc : list Chunk) (prev : Chunk) :
  _merge_overlapping_chunks chunks = acc ++ [prev] -> chunks <> [].
Proof.
  intros H ->. simpl in H. destruct acc; discriminate.
Qed.


(** C1, as stated, fails on Scenario 1: the overlap of 2 seconds is not
    more than half of the 10 seconds of the first chunk (and the last five
    words of the first chunk are not the first five of the second), so the
    merger returns the two chunks, not the merged one. *)
Lemma scenario1_not_merged :
  _merge_overlapping_chunks [scenario1_prev; scenario1_cur]
  <> [mkChunk (0, 18) "hello world how are you today friend"].
Proof.
  vm_compute. discriminate.
Qed.

(** C1 (amended): on the input of Scenario 1 the merger returns both chunks
    unchanged; in general, when [cur] follows the last accumulated chunk
    [prev] with [cur.start < prev.end], an overlap of more than half the
    duration of [prev], and the last [k = min(5, word_count(prev))] words
    of [prev] equal to the first [k] words of [cur], the merger replaces
    [prev] by the chunk from [prev.start] to [cur.end] whose text is that
    of [prev], a space, and the words of [cur] beyond the first [k]. *)
Theorem chunk_merger_stitching :
  _merge_overlapping_chunks [scenario1_prev; scenario1_cur]
  = [scenario1_prev; scenario1_cur]
  /\ forall (chunks acc : list Chunk) (prev cur : Chunk),
      _merge_overlapping_chunks chunks = acc ++ [prev] ->
      ts0 cur < ts1 prev ->
      0.5 * (ts1 prev - ts0 prev) < ts1 prev - ts0 cur ->
      let prev_words := split (text prev) in
      let cur_words := split (text cur) in
      let k := Nat.min 5 (List.length prev_words) in
      skipn (List.length prev_words - k) prev_words = firstn k cur_words ->
      _merge_overlapping_chunks (chunks ++ [cur]) =
      acc ++ [mkChunk (ts0 prev, ts1 cur)
                (text prev ++ " " ++ join " " (skipn k cur_words))%string].
Proof.
  split; [vm_compute; reflexivity|].
  intros chunks acc prev cur Hacc Hstart Hhalf prev_words cur_words k Hwords.
  rewrite merge_overlapping_chunks_snoc by (eapply merged_nonempty; eauto).
  rewrite Hacc, merge_chunk_snoc.
  assert (Hs : stitches prev cur = true).
  { unfold stitches, boundary_words_match.
    rewrite !andb_true_iff. repeat split.
    - apply Qltb_lt. exact Hstart.
    - apply Qltb_lt. lra.
    - apply words_eqb_eq. rewrite slice_last_min. exact Hwords. }
  rewrite Hs. reflexivity.
Qed.

(** The rule of [chunk_merger_stitching] applied: a second window that
    restates the five words of the first. *)
Lemma chunk_merger_stitching_witness :
  _merge_overlapping_chunks
    ([mkChunk (0, 10) "hello world how are you"]
     ++ [mkChunk (4, 18) "hello world how are you today friend"])
  = [] ++ [mkChunk (0, 18) "hello world how are you today friend"].
Proof.
  apply (proj2 chunk_merger_stitching
           [mkChunk (0, 10) "hello world how are you"] []
           (mkChunk (0, 10) "hello world how are you")
           (mkChunk (4, 18) "hello world how are you today friend")).
  - reflexivity.
  - reflexivity.
  - reflexivity.
  - reflexivity.
Defined.

(** C9, as stated, fails: with an empty [prev.text] the number of boundary
    words is [min(5, 0) = 0], the two empty slices are equal, and a chunk
    overlapping more than half of [prev] is stitched onto it. *)
Lemma empty_prev_is_stitched :
  _merge_overlapping_chunks [mkChunk (0, 10) ""; mkChunk (4, 18) "hello world"]
  <> [mkChunk (0, 10) ""; mkChunk (4, 18) "hello world"]
  /\ _merge_overlapping_chunks
       [mkChunk (0, 10) ""; mkChunk (4, 18) "hello world"]
     = [mkChunk (0, 18) " hello world"].
Proof.
  split; [vm_compute; discriminate | vm_compute; reflexivity].
Qed.

(** C9 (amended): when the last accumulated chunk [prev] has an empty text,
    the merger appends [cur] as a new chunk and leaves [prev] as it is
    exactly when the overlap test fails, that is unless
    [cur.start < prev.end] and the overlap exceeds half the duration of
    [prev]. *)
Theorem empty_prev_appended_iff :
  forall (chunks acc : list Chunk) (prev cur : Chunk),
    _merge_overlapping_chunks chunks = acc ++ [prev] ->
    text prev = "" ->
    (_merge_overlapping_chunks (chunks ++ [cur]) = acc ++ [prev; cur]
     <-> ~ (ts0 cur < ts1 prev
            /\ 0.5 * (ts1 prev - ts0 prev) < ts1 prev - ts0 cur)).
Proof.
  intros chunks acc prev cur Hacc Htext.
  rewrite merge_overlapping_chunks_snoc by (eapply merged_nonempty; eauto).
  rewrite Hacc, merge_chunk_snoc.
  unfold stitches, boundary_words_match. rewrite Htext. simpl.
  case_Qltb (ts0 cur) (ts1 prev) H1; simpl.
  - case_Qltb ((ts1 prev - ts0 prev) * 0.5) (ts1 prev - ts0 cur) H2; simpl.
    + split.
      * intro H. apply (f_equal (@List.length Chunk)) in H.
        rewrite !length_app in H. simpl in H. lia.
      * intro H. exfalso. apply H. split; [exact H1 | lra].
    + split; [|reflexivity]. intros _ [_ H]. lra.
  - split; [|reflexivity]. intros _ [H _]. lra.
Qed.

(** The rule of [empty_prev_appended_iff] applied to a chunk that starts
    after the empty one has ended. *)
Lemma empty_prev_appended_iff_witness :
  _merge_overlapping_chunks ([mkChunk (0, 10) ""] ++ [mkChunk (12, 18) "hello"])
  = [] ++ [mkChunk (0, 10) ""; mkChunk (12, 18) "hello"]
  <-> ~ (12 < 10 /\ 0.5 * (10 - 0) < 10 - 12).
Proof.
  apply (empty_prev_appended_iff
           [mkChunk (0, 10) ""] [] (mkChunk (0, 10) "")
           (mkChunk (12, 18) "hello")).
  - reflexivity.
  - reflexivity.
Defined.

(** ** Consecutive items *)


#[local] Hint Constructors chain : core.

Lemma chain_nth {A : Type} (R : A -> A -> Prop) (l : list A) :
  chain R l ->
  forall i a b, nth_error l i = Some a -> nth_error l (S i) = Some b -> R a b.
Proof.
  induction 1 as [|x|x y l Hxy Hl IH]; intros i a b Ha Hb.
  - destruct i; discriminate.
  - destruct i as [|[|i]]; discriminate.
  - destruct i as [|i].
    + simpl in Ha, Hb. injection Ha as <-. injection Hb as <-. exact Hxy.
    + apply (IH i); assumption.
Qed.

Lemma chain_map {A B : Type} (f : A -> B) (R : A -> A -> Prop)
    (S : B -> B -> Prop) (l : list A) :
  (forall x y, R x y -> S (f x) (f y)) ->
  chain R l -> chain S (map f l).
Proof.
  intros HRS. induction 1; simpl; auto.
Qed.

(** ** Turn merger *)


Lemma folds_false (a b : Aligned) : folds a b = false <-> apart a b.
Proof.
  unfold folds, apart. destruct (String.eqb_spec (r_speaker a) (r_speaker b)).
  - simpl. rewrite Qltb_ge. tauto.
  - simpl. tauto.
Qed.

(** The first turn starts where [current] starts, with its speaker. *)
Lemma turns_from_head (rest : list Aligned) :
  forall current, exists turn turns,
    turns_from current rest = turn :: turns
    /\ r_start turn = r_start current
    /\ r_speaker turn = r_speaker current.
Proof.
  induction rest as [|next_seg rest IH]; intros current; simpl.
  - eauto.
  - destruct (folds current next_seg).
    + destruct (IH (absorb current next_seg)) as (t & ts & -> & Hs & Hp). eauto.
    + eauto.
Qed.

Lemma turns_from_apart (rest : list Aligned) :
  forall current, chain apart (turns_from current rest).
Proof.
  induction rest as [|next_seg rest IH]; intros current; simpl.
  - auto.
  - destruct (folds current next_seg) eqn:F.
    + apply IH.
    + specialize (IH next_seg).
      destruct (turns_from_head rest next_seg) as (t & ts & E & Hs & Hp).
      rewrite E in *. constructor; [|exact IH].
      apply folds_false in F. unfold apart in *. rewrite Hs, Hp. exact F.
Qed.

Lemma merge_consecutive_speakers_apart (results : list Aligned) :
  chain apart (_merge_consecutive_speakers results).
Proof.
  destruct results as [|first rest]; [constructor|].
  rewrite merge_consecutive_speakers_cons. apply turns_from_apart.
Qed.

Lemma turns_from_fixed (rest : list Aligned) :
  forall current,
    chain apart (current :: rest) -> turns_from current rest = current :: rest.
Proof.
  induction rest as [|next_seg rest IH]; intros current H; simpl.
  - reflexivity.
  - inversion H; subst.
    match goal with h : apart _ _ |- _ => apply folds_false in h; rewrite h end.
    f_equal. apply IH. assumption.
Qed.

Lemma merge_consecutive_speakers_fixed (results : list Aligned) :
  chain apart results -> _merge_consecutive_speakers results = results.
Proof.
  destruct results as [|first rest]; [reflexivity|]. intro H.
  rewrite merge_consecutive_speakers_cons. apply turns_from_fixed. exact H.
Qed.

(** C10: in the output of the turn merger, two consecutive segments of the
    same speaker are at least 2.0 seconds apart
    ([next.start - current.end >= 2.0]); and the turn merger applied to its
    own output returns it unchanged. *)
Theorem turn_merger_exhaustive :
  forall results : list Aligned,
    (forall i current next,
        nth_error (_merge_consecutive_speakers results) i = Some current ->
        nth_error (_merge_consecutive_speakers results) (S i) = Some next ->
        r_speaker current = r_speaker next ->
        2.0 <= r_start next - r_end current)
    /\ _merge_consecutive_speakers (_merge_consecutive_speakers results)
       = _merge_consecutive_speakers results.
Proof.
  intro results. split.
  - intros i current next Hc Hn.
    exact (chain_nth apart _ (merge_consecutive_speakers_apart results)
             i current next Hc Hn).
  - apply merge_consecutive_speakers_fixed, merge_consecutive_speakers_apart.
Qed.


Lemma turn_merger_exhaustive_witness :
  2.0 <= 5.5 - 3.
Proof.
  apply (proj1 (turn_merger_exhaustive three_segments) 0%nat
           (mkAligned 0 3 "SPEAKER_00" "a b")
           (mkAligned 5.5 6 "SPEAKER_00" "c")).
  - reflexivity.
  - reflexivity.
  - reflexivity.
Defined.

(** ** Redundancy remover *)

Lemma clean_from_head (rest : list Aligned) :
  forall prev, exists tail, clean_from prev rest = prev :: tail.
Proof.
  induction rest as [|current rest IH]; intros prev; simpl.
  - eauto.
  - destruct (is_contained_duplicate prev current); [apply IH|].
    destruct (Qltb _ _); [eauto | apply IH].
Qed.

Lemma clean_from_long (rest : list Aligned) :
  forall prev tail,
    clean_from prev rest = prev :: tail ->
    Forall (fun s => 0.1 < duration s) tail.
Proof.
  induction rest as [|current rest IH]; intros prev tail; simpl.
  - intros [= <-]. constructor.
  - destruct (is_contained_duplicate prev current); [apply IH|].
    case_Qltb 0.1 (r_end (fix_drift prev current)
                   - r_start (fix_drift prev current)) Hlong; [|apply IH].
    intros [= <-].
    destruct (clean_from_head rest (fix_drift prev current)) as [tail' E].
    rewrite E. constructor; [exact Hlong|].
    apply (IH _ _ E).
Qed.

Lemma fix_drift_settled (prev current : Aligned) :
  settled prev (fix_drift prev current).
Proof.
  unfold settled, fix_drift.
  case_Qltb (r_start current) (r_end prev) Hs.
  - case_Qltb (overlap_duration prev current) 1.0 Ho.
    + left. simpl. apply Qle_refl.
    + right. exact Ho.
  - left. exact Hs.
Qed.

Lemma clean_from_settled (rest : list Aligned) :
  forall prev, chain settled (clean_from prev rest).
Proof.
  induction rest as [|current rest IH]; intros prev; simpl.
  - constructor.
  - destruct (is_contained_duplicate prev current); [apply IH|].
    destruct (Qltb _ _); [|apply IH].
    specialize (IH (fix_drift prev current)).
    destruct (clean_from_head rest (fix_drift prev current)) as [tail E].
    rewrite E in *. constructor; [apply fix_drift_settled | exact IH].
Qed.

Lemma remove_redundant_segments_settled (segments : list Aligned) :
  chain settled (_remove_redundant_segments segments).
Proof.
  destruct segments as [|first rest]; [constructor|].
  rewrite remove_redundant_segments_cons. apply clean_from_settled.
Qed.

(** C8, as stated, fails for the first segment: the remover starts from
    [segments[0]] without looking at its duration, so a first segment of
    0.05 seconds is in the output. *)
Lemma short_first_segment_kept :
  nth_error (_remove_redundant_segments [mkAligned 0 0.05 "SPEAKER_00" "a"]) 0
  = Some (mkAligned 0 0.05 "SPEAKER_00" "a")
  /\ ~ 0.1 < r_end (mkAligned 0 0.05 "SPEAKER_00" "a")
           - r_start (mkAligned 0 0.05 "SPEAKER_00" "a").
Proof.
  split; [reflexivity|]. apply Qle_not_lt. vm_compute. discriminate.
Qed.

(** C8 (amended): the first segment of the output is the first segment of
    the input, whatever its duration; every later segment of the output
    has a final [end - start] strictly greater than 0.1 seconds. *)
Theorem remover_minimum_duration :
  forall segments : list Aligned,
    nth_error (_remove_redundant_segments segments) 0 = nth_error segments 0
    /\ forall i s,
        nth_error (_remove_redundant_segments segments) (S i) = Some s ->
        0.1 < r_end s - r_start s.
Proof.
  intros [|first rest]; [split; [reflexivity | intros [|i] s; discriminate]|].
  rewrite remove_redundant_segments_cons.
  destruct (clean_from_head rest first) as [tail E].
  pose proof (clean_from_long rest first tail E) as Hlong.
  rewrite E. split; [reflexivity|].
  intros i s Hi. simpl in Hi.
  apply nth_error_In in Hi.
  rewrite Forall_forall in Hlong. exact (Hlong s Hi).
Qed.

(** The second segment drifts 0.3 seconds into the first; after the clamp
    it lasts 1.7 seconds. *)
Lemma remover_minimum_duration_witness :
  0.1 < 5 - 3.
Proof.
  apply (proj2 (remover_minimum_duration
                  [mkAligned 0 3 "SPEAKER_00" "a";
                   mkAligned 2.7 5 "SPEAKER_00" "b"])
           0%nat (mkAligned 3 5 "SPEAKER_00" "b")).
  reflexivity.
Defined.

(** ** Consecutive segments of the assembled transcript *)

Lemma process_with_speakers_apart
    (get_overlap : list Track -> list Segment)
    (speaker_label_of : string -> string)
    (all_chunks : list Chunk) (raw_annotation : list Track) :
  chain f_apart
    (process_with_speakers get_overlap speaker_label_of
       all_chunks raw_annotation).
Proof.
  unfold process_with_speakers.
  apply chain_map with (R := apart).
  - unfold apart, f_apart. simpl. intros x y H E. specialize (H E). lra.
  - apply merge_consecutive_speakers_apart.
Qed.

(** C2, as stated, fails: two chunks of different speakers that overlap by
    four seconds pass the redundancy remover (the overlap is not below one
    second, so the start is not moved) and the turn merger (the speakers
    differ); the second output starts before the first has ended. *)
Lemma overlapping_output :
  let output :=
    process_with_speakers no_overlap plain_label
      crossing_chunks crossing_tracks in
  let first :=
    mkFormatted "a b" 0 10 "SPEAKER_00" "SPEAKER_00" false in
  let second :=
    mkFormatted "c d" 6 16 "SPEAKER_01" "SPEAKER_01" false in
  nth_error output 0 = Some first
  /\ nth_error output 1 = Some second
  /\ ~ f_end first <= f_start second
  /\ first <> second.
Proof.
  repeat split.
  - apply Qlt_not_le. reflexivity.
  - discriminate.
Qed.

(** C2 (amended): two consecutive segments of the full pipeline output
    that carry the same speaker never overlap, the second starts at least
    2.0 seconds after the first has ended; consecutive segments of
    different speakers may overlap.  For the consecutive segments of the
    redundancy remover's output, the second starts when the first has
    ended or the two overlap by at least 1.0 second. *)
Theorem pipeline_monotonicity :
  forall (get_overlap : list Track -> list Segment)
         (speaker_label_of : string -> string)
         (all_chunks : list Chunk) (raw_annotation : list Track),
    (forall i a b,
        nth_error (process_with_speakers get_overlap speaker_label_of
                     all_chunks raw_annotation) i = Some a ->
        nth_error (process_with_speakers get_overlap speaker_label_of
                     all_chunks raw_annotation) (S i) = Some b ->
        f_speaker_id a = f_speaker_id b ->
        f_end a + 2.0 <= f_start b)
    /\ (forall segments i a b,
           nth_error (_remove_redundant_segments segments) i = Some a ->
           nth_error (_remove_redundant_segments segments) (S i) = Some b ->
           r_end a <= r_start b \/ 1.0 <= overlap_duration a b).
Proof.
  intros get_overlap speaker_label_of all_chunks raw_annotation. split.
  - intros i a b Ha Hb.
    exact (chain_nth f_apart _
             (process_with_speakers_apart get_overlap speaker_label_of
                all_chunks raw_annotation) i a b Ha Hb).
  - intros segments i a b Ha Hb.
    exact (chain_nth settled _
             (remove_redundant_segments_settled segments) i a b Ha Hb).
Qed.

(** Two turns of one speaker three seconds apart, and a segment clamped
    to the end of the one before it. *)
Lemma pipeline_monotonicity_witness :
  1 + 2.0 <= 4
  /\ (3 <= 3
      \/ 1.0 <= overlap_duration (mkAligned 0 3 "SPEAKER_00" "a")
                  (mkAligned 3 5 "SPEAKER_00" "b")).
Proof.
  split.
  - apply (proj1 (pipeline_monotonicity no_overlap plain_label
                    apart_chunks apart_tracks)
             0%nat
             (mkFormatted "a" 0 1 "SPEAKER_00" "SPEAKER_00" false)
             (mkFormatted "b" 4 5 "SPEAKER_00" "SPEAKER_00" false)).
    + reflexivity.
    + reflexivity.
    + reflexivity.
  - apply (proj2 (pipeline_monotonicity no_overlap plain_label [] [])
             [mkAligned 0 3 "SPEAKER_00" "a";
              mkAligned 2.7 5 "SPEAKER_00" "b"]
             0%nat
             (mkAligned 0 3 "SPEAKER_00" "a")
             (mkAligned 3 5 "SPEAKER_00" "b")).
    + reflexivity.
    + reflexivity.
Defined.

(** ** Total durations through the stages *)





(** *** Chunk merger: a stitch spans less than its two chunks *)




Lemma merge_from_length (rest : list Chunk) :
  forall prev, (List.length (merge_from prev rest) <= S (List.length rest))%nat.
Proof.
  induction rest as [|current rest IH]; intros prev; simpl.
  - lia.
  - destruct (stitches prev current).
    + specialize (IH (stitched prev current)). lia.
    + simpl. specialize (IH current). lia.
Qed.


(** *** Alignment: one segment per chunk of positive duration *)

Lemma align_chunk_app (speaker_segments : list SpeakerSegment)
    (results : list Aligned) (chunk : Chunk) :
  align_chunk speaker_segments results chunk
  = results ++ aligned_of speaker_segments chunk.
Proof.
  unfold aligned_of, align_chunk.
  destruct (Qle_bool (ts1 chunk - ts0 chunk) 0).
  - symmetry. apply app_nil_r.
  - destruct (fold_left (overlap_step (ts0 chunk) (ts1 chunk))
                speaker_segments []) as [|[k v] stats]; reflexivity.
Qed.

Lemma fold_align_chunk (speaker_segments : list SpeakerSegment)
    (whisper_chunks : list Chunk) :
  forall results,
    fold_left (align_chunk speaker_segments) whisper_chunks results
    = results ++ flat_map (aligned_of speaker_segments) whisper_chunks.
Proof.
  induction whisper_chunks as [|chunk rest IH]; intros results; simpl.
  - symmetry. apply app_nil_r.
  - rewrite IH, align_chunk_app, <- app_assoc. reflexivity.
Qed.

Lemma align_whisper_with_diarization_flat_map
    (whisper_chunks : list Chunk) (speaker_segments : list SpeakerSegment) :
  _align_whisper_with_diarization whisper_chunks speaker_segments
  = flat_map (aligned_of speaker_segments) whisper_chunks.
Proof.
  unfold _align_whisper_with_diarization. apply fold_align_chunk.
Qed.

Lemma aligned_of_cases (speaker_segments : list SpeakerSegment)
    (chunk : Chunk) :
  (chunk_duration chunk <= 0 /\ aligned_of speaker_segments chunk = [])
  \/ (0 < chunk_duration chunk
      /\ exists speaker,
          aligned_of speaker_segments chunk
          = [mkAligned (ts0 chunk) (ts1 chunk) speaker (text chunk)]).
Proof.
  unfold aligned_of, align_chunk, chunk_duration.
  destruct (Qle_bool (ts1 chunk - ts0 chunk) 0) eqn:E.
  - left. split; [apply Qle_bool_iff; exact E | reflexivity].
  - right. split; [apply Qle_bool_gt; exact E|].
    destruct (fold_left (overlap_step (ts0 chunk) (ts1 chunk))
                speaker_segments []) as [|[k v] stats]; simpl; eauto.
Qed.


Lemma align_positive (speaker_segments : list SpeakerSegment)
    (whisper_chunks : list Chunk) :
  Forall (fun s => 0 < duration s)
    (flat_map (aligned_of speaker_segments) whisper_chunks).
Proof.
  induction whisper_chunks as [|chunk rest IH]; simpl; [constructor|].
  apply Forall_app. split; [|exact IH].
  destruct (aligned_of_cases speaker_segments chunk)
    as [[Hd ->]|[Hd [speaker ->]]]; constructor; [|constructor].
  exact Hd.
Qed.


(** *** Sorting keeps the items *)



Lemma insert_by_In {A : Type} (key : A -> Q) (x : A) (l : list A) :
  forall y, In y (insert_by key x l) <-> y = x \/ In y l.
Proof.
  induction l as [|z l IH]; intros y; simpl.
  - intuition.
  - destruct (Qltb (key z) (key x)); simpl; [rewrite IH|]; intuition.
Qed.

Lemma sorted_by_In {A : Type} (key : A -> Q) (l : list A) :
  forall y, In y (sorted_by key l) <-> In y l.
Proof.
  induction l as [|x l IH]; intros y; simpl; [tauto|].
  rewrite insert_by_In, IH. intuition.
Qed.

Lemma sorted_by_Forall {A : Type} (key : A -> Q) (P : A -> Prop)
    (l : list A) :
  Forall P l -> Forall P (sorted_by key l).
Proof.
  rewrite !Forall_forall. intros H y Hy. apply H, sorted_by_In with key.
  exact Hy.
Qed.

Lemma insert_by_length {A : Type} (key : A -> Q) (x : A) (l : list A) :
  List.length (insert_by key x l) = S (List.length l).
Proof.
  induction l as [|y l IH]; simpl; [reflexivity|].
  destruct (Qltb (key y) (key x)); simpl; [rewrite IH|]; reflexivity.
Qed.

Lemma sorted_by_length {A : Type} (key : A -> Q) (l : list A) :
  List.length (sorted_by key l) = List.length l.
Proof.
  induction l as [|x l IH]; simpl; [reflexivity|].
  rewrite insert_by_length, IH. reflexivity.
Qed.

(** *** Redundancy remover: segments are dropped or shortened *)

Lemma fix_drift_duration (prev current : Aligned) :
  duration (fix_drift prev current) <= duration current.
Proof.
  unfold fix_drift, duration.
  case_Qltb (r_start current) (r_end prev) Hs; [|lra].
  destruct (Qltb (overlap_duration prev current) 1.0); simpl; lra.
Qed.

Lemma clean_from_weight (rest : list Aligned) :
  forall prev,
    Forall (fun s => 0 < duration s) rest ->
    total weight (clean_from prev rest) <= weight prev + total weight rest.
Proof.
  induction rest as [|current rest IH]; intros prev Hrest; simpl.
  - lra.
  - inversion Hrest as [|? ? Hcur Hrest']; subst.
    pose proof (fix_drift_duration prev current) as Hfix.
    assert (Hw : weight current == duration current + 2) by reflexivity.
    assert (Hw' : weight (fix_drift prev current)
                  == duration (fix_drift prev current) + 2) by reflexivity.
    destruct (is_contained_duplicate prev current).
    + pose proof (IH prev Hrest'). lra.
    + destruct (Qltb _ _).
      * simpl. pose proof (IH (fix_drift prev current) Hrest'). lra.
      * pose proof (IH prev Hrest'). lra.
Qed.

Lemma clean_from_positive (rest : list Aligned) (prev : Aligned) :
  0 < duration prev ->
  Forall (fun s => 0 < duration s) (clean_from prev rest).
Proof.
  intro Hprev. destruct (clean_from_head rest prev) as [tail E].
  rewrite E. constructor; [exact Hprev|].
  apply clean_from_long in E.
  eapply Forall_impl; [|exact E]. simpl. intros s Hs. lra.
Qed.


(** *** Turn merger: a fold adds less than the two seconds it bridges *)

Lemma absorb_weight (current next_seg : Aligned) :
  folds current next_seg = true ->
  0 <= duration current -> 0 <= duration next_seg ->
  0 <= duration (absorb current next_seg)
  /\ weight (absorb current next_seg) <= weight current + weight next_seg.
Proof.
  unfold folds. rewrite andb_true_iff. intros [_ Hgap] Hc Hn.
  apply Qltb_lt in Hgap.
  unfold weight, duration, absorb in *. simpl.
  destruct (py_max_cases (r_end current) (r_end next_seg)) as [[? ->]|[? ->]];
    split; lra.
Qed.



(** *** The stages on whole lists *)

Lemma remove_redundant_segments_weight (segments : list Aligned) :
  Forall (fun s => 0 < duration s) segments ->
  total weight (_remove_redundant_segments segments) <= total weight segments
  /\ Forall (fun s => 0 < duration s) (_remove_redundant_segments segments).
Proof.
  destruct segments as [|first rest]; intro H.
  - split; [simpl; lra | constructor].
  - rewrite remove_redundant_segments_cons.
    inversion H; subst. split.
    + apply clean_from_weight. assumption.
    + apply clean_from_positive. assumption.
Qed.






(** ** Coverage *)




(** ** Empty inputs *)

Lemma aligned_of_no_speakers (chunk : Chunk) :
  Forall (fun s => r_speaker s = "SPEAKER_00") (aligned_of [] chunk).
Proof.
  unfold aligned_of, align_chunk. simpl.
  destruct (Qle_bool (ts1 chunk - ts0 chunk) 0); repeat constructor.
Qed.

Lemma align_no_speakers (whisper_chunks : list Chunk) :
  Forall (fun s => r_speaker s = "SPEAKER_00")
    (flat_map (aligned_of []) whisper_chunks).
Proof.
  induction whisper_chunks as [|chunk rest IH]; simpl; [constructor|].
  apply Forall_app. split; [apply aligned_of_no_speakers | exact IH].
Qed.

Lemma fix_drift_speaker (prev current : Aligned) :
  r_speaker (fix_drift prev current) = r_speaker current.
Proof.
  unfold fix_drift.
  destruct (Qltb (r_start current) (r_end prev)); [|reflexivity].
  destruct (Qltb (overlap_duration prev current) 1.0); reflexivity.
Qed.

Lemma clean_from_speaker (speaker : string) (rest : list Aligned) :
  forall prev,
    r_speaker prev = speaker ->
    Forall (fun s => r_speaker s = speaker) rest ->
    Forall (fun s => r_speaker s = speaker) (clean_from prev rest).
Proof.
  induction rest as [|current rest IH]; intros prev Hprev Hrest; simpl.
  - repeat constructor. exact Hprev.
  - apply Forall_cons_iff in Hrest. destruct Hrest as [Hcur Hrest].
    destruct (is_contained_duplicate prev current); [apply IH; assumption|].
    destruct (Qltb _ _); [|apply IH; assumption].
    constructor; [exact Hprev|].
    apply IH; [rewrite fix_drift_speaker; exact Hcur | assumption].
Qed.

Lemma turns_from_speaker (speaker : string) (rest : list Aligned) :
  forall current,
    r_speaker current = speaker ->
    Forall (fun s => r_speaker s = speaker) rest ->
    Forall (fun s => r_speaker s = speaker) (turns_from current rest).
Proof.
  induction rest as [|next_seg rest IH]; intros current Hc Hrest; simpl.
  - repeat constructor. exact Hc.
  - apply Forall_cons_iff in Hrest. destruct Hrest as [Hnext Hrest].
    destruct (folds current next_seg).
    + apply IH; [exact Hc | assumption].
    + constructor; [exact Hc|]. apply IH; assumption.
Qed.

Lemma flat_map_aligned_nil (speaker_segments : list SpeakerSegment)
    (whisper_chunks : list Chunk) :
  flat_map (aligned_of speaker_segments) whisper_chunks = []
  <-> Forall (fun c => ts1 c - ts0 c <= 0) whisper_chunks.
Proof.
  induction whisper_chunks as [|chunk rest IH]; simpl.
  - split; [constructor | reflexivity].
  - destruct (aligned_of_cases speaker_segments chunk)
      as [[Hd E]|[Hd [speaker E]]]; rewrite E; simpl.
    + rewrite IH. split.
      * intro H. constructor; assumption.
      * intro H. inversion H; assumption.
    + split; [discriminate|]. intro H. inversion H; subst.
      unfold chunk_duration in Hd. lra.
Qed.

Lemma sorted_by_nil {A : Type} (key : A -> Q) (l : list A) :
  sorted_by key l = [] <-> l = [].
Proof.
  split; intro H.
  - apply length_zero_iff_nil. rewrite <- (sorted_by_length key), H.
    reflexivity.
  - subst. reflexivity.
Qed.

Lemma remove_redundant_segments_nil (segments : list Aligned) :
  _remove_redundant_segments segments = [] <-> segments = [].
Proof.
  destruct segments as [|first rest]; [tauto|].
  rewrite remove_redundant_segments_cons.
  destruct (clean_from_head rest first) as [tail ->].
  split; discriminate.
Qed.

Lemma merge_consecutive_speakers_nil (results : list Aligned) :
  _merge_consecutive_speakers results = [] <-> results = [].
Proof.
  destruct results as [|first rest]; [tauto|].
  rewrite merge_consecutive_speakers_cons.
  destruct (turns_from_head rest first) as (turn & turns & -> & _).
  split; discriminate.
Qed.

(** C4, as stated, fails for an empty interval list: the alignment falls
    back to the nearest speaker, which is the default ["SPEAKER_00"] when
    there is no interval, and the chunk is returned under that label. *)
Lemma no_intervals_not_empty :
  process_with_speakers no_overlap plain_label [mkChunk (0, 2) "hi"] []
  = [mkFormatted "hi" 0 2 "SPEAKER_00" "SPEAKER_00" false]
  /\ process_with_speakers no_overlap plain_label [mkChunk (0, 2) "hi"] []
     <> [].
Proof.
  split; [reflexivity | discriminate].
Qed.

(** C4 (amended): with an empty chunk list the pipeline returns an empty
    list.  With an empty interval list every returned segment carries the
    default label ["SPEAKER_00"], and the returned list is empty only when
    no chunk left by the chunk merger has a positive duration.  The
    pipeline is a total function of its two lists: it raises no error. *)
Theorem empty_input_behaviour :
  forall (get_overlap : list Track -> list Segment)
         (speaker_label_of : string -> string),
    (forall raw_annotation,
        process_with_speakers get_overlap speaker_label_of [] raw_annotation
        = [])
    /\ (forall all_chunks,
           Forall (fun o => f_speaker_id o = "SPEAKER_00")
             (process_with_speakers get_overlap speaker_label_of
                all_chunks []))
    /\ (forall all_chunks,
           process_with_speakers get_overlap speaker_label_of all_chunks []
           = []
           <-> Forall (fun c => ts1 c - ts0 c <= 0)
                 (_merge_overlapping_chunks all_chunks)).
Proof.
  intros get_overlap speaker_label_of. split; [|split].
  - reflexivity.
  - intro all_chunks. unfold process_with_speakers. cbv zeta.
    rewrite align_whisper_with_diarization_flat_map. simpl map at 2.
    apply Forall_map. simpl.
    set (S := sorted_by r_start _).
    assert (HS : Forall (fun s => r_speaker s = "SPEAKER_00") S)
      by apply sorted_by_Forall, align_no_speakers.
    destruct S as [|first rest]; [constructor|].
    rewrite remove_redundant_segments_cons.
    apply Forall_cons_iff in HS. destruct HS as [Hfirst Hrest].
    pose proof (clean_from_speaker "SPEAKER_00" rest first Hfirst Hrest)
      as HR.
    destruct (clean_from_head rest first) as [tail E]. rewrite E in *.
    rewrite merge_consecutive_speakers_cons.
    apply Forall_cons_iff in HR. destruct HR as [_ Htail].
    apply turns_from_speaker; assumption.
  - intro all_chunks. unfold process_with_speakers. cbv zeta.
    rewrite align_whisper_with_diarization_flat_map. simpl map at 2.
    rewrite <- (flat_map_aligned_nil []).
    rewrite <- (sorted_by_nil r_start).
    rewrite <- remove_redundant_segments_nil.
    rewrite <- merge_consecutive_speakers_nil.
    split.
    + apply map_eq_nil.
    + intros ->. reflexivity.
Qed.

(** ** Diarization smoother *)

Lemma merges_false (a b : Track) : merges a b = false <-> separated a b.
Proof.
  unfold merges, separated.
  destruct (String.eqb_spec (track_label b) (track_label a)).
  - simpl. rewrite Qltb_ge. tauto.
  - simpl. tauto.
Qed.

(** The first smoothed interval starts where [current] starts, with its
    label. *)
Lemma spec_merge_adjacent_head (rest : list Track) :
  forall current, exists t tail,
    spec_merge_adjacent current rest = t :: tail
    /\ track_start t = track_start current
    /\ track_label t = track_label current.
Proof.
  induction rest as [|next rest IH]; intros current; simpl.
  - eauto.
  - destruct (merges current next).
    + destruct (IH (mkSegment (track_start current) (track_end next),
                    track_label current)) as (t & tail & -> & Hs & Hl).
      eauto.
    + eauto.
Qed.

Lemma spec_merge_adjacent_separated (rest : list Track) :
  forall current, chain separated (spec_merge_adjacent current rest).
Proof.
  induction rest as [|next rest IH]; intros current; simpl.
  - constructor.
  - destruct (merges current next) eqn:M.
    + apply IH.
    + specialize (IH next).
      destruct (spec_merge_adjacent_head rest next) as (t & tail & E & Hs & Hl).
      rewrite E in *. constructor; [|exact IH].
      apply merges_false in M. unfold separated in *. rewrite Hs, Hl. exact M.
Qed.

Lemma spec_merge_adjacent_fixed (rest : list Track) :
  forall current,
    chain separated (current :: rest) ->
    spec_merge_adjacent current rest = current :: rest.
Proof.
  induction rest as [|next rest IH]; intros current H; simpl.
  - reflexivity.
  - inversion H; subst.
    match goal with h : separated _ _ |- _ => apply merges_false in h; rewrite h end.
    f_equal. apply IH. assumption.
Qed.

(** What holds of the starts of the intervals holds of the starts of the
    smoothed ones. *)
Lemma spec_merge_adjacent_starts (P : Q -> Prop) (rest : list Track) :
  forall current,
    P (track_start current) ->
    Forall (fun t => P (track_start t)) rest ->
    Forall (fun t => P (track_start t)) (spec_merge_adjacent current rest).
Proof.
  induction rest as [|next rest IH]; intros current Hc Hrest; simpl.
  - repeat constructor. exact Hc.
  - apply Forall_cons_iff in Hrest. destruct Hrest as [Hn Hrest].
    destruct (merges current next).
    + apply IH; assumption.
    + constructor; [exact Hc|]. apply IH; assumption.
Qed.

Lemma spec_merge_adjacent_strict (rest : list Track) :
  forall current,
    Forall (earlier current) rest ->
    StronglySorted earlier rest ->
    StronglySorted earlier (spec_merge_adjacent current rest).
Proof.
  induction rest as [|next rest IH]; intros current Hc Hrest; simpl.
  - repeat constructor.
  - apply Forall_cons_iff in Hc. destruct Hc as [Hn Hc].
    apply StronglySorted_inv in Hrest. destruct Hrest as [Hrest Hnext].
    destruct (merges current next).
    + apply IH; assumption.
    + constructor.
      * apply IH; assumption.
      * apply (spec_merge_adjacent_starts (fun q => track_start current < q));
          assumption.
Qed.

Lemma strict_after_merge (current next : Track) (rest : list Track)
    (end_ : Q) (label : string) :
  StronglySorted earlier (current :: next :: rest) ->
  StronglySorted earlier
    ((mkSegment (track_start current) end_, label) :: rest).
Proof.
  intro H. apply StronglySorted_inv in H. destruct H as [Hrest Hc].
  apply StronglySorted_inv in Hrest. destruct Hrest as [Hrest _].
  apply Forall_cons_iff in Hc. destruct Hc as [_ Hc].
  constructor; [exact Hrest | exact Hc].
Qed.

Lemma spec_merge_adjacent_nonempty (rest : list Track) :
  forall current,
    nonempty_track current ->
    Forall nonempty_track rest ->
    StronglySorted earlier (current :: rest) ->
    Forall nonempty_track (spec_merge_adjacent current rest).
Proof.
  induction rest as [|next rest IH]; intros current Hc Hrest Hs; simpl.
  - repeat constructor. exact Hc.
  - apply Forall_cons_iff in Hrest. destruct Hrest as [Hn Hrest].
    destruct (merges current next).
    + apply IH; [|assumption|].
      * apply StronglySorted_inv in Hs. destruct Hs as [_ He].
        apply Forall_cons_iff in He. destruct He as [He _].
        unfold nonempty_track, segment_nonempty, earlier in *. simpl.
        apply Qltb_lt. apply Qltb_lt in Hn.
        unfold track_start, track_end in *. lra.
      * apply strict_after_merge with next. exact Hs.
    + constructor; [exact Hc|].
      apply StronglySorted_inv in Hs. destruct Hs as [Hs _].
      apply IH; assumption.
Qed.

Lemma spec_merge_adjacent_from (d : list Track) (rest : list Track) :
  forall current,
    from_tracks d current ->
    Forall (from_tracks d) rest ->
    Forall (from_tracks d) (spec_merge_adjacent current rest).
Proof.
  induction rest as [|next rest IH]; intros current Hc Hrest; simpl.
  - repeat constructor. exact Hc.
  - apply Forall_cons_iff in Hrest. destruct Hrest as [Hn Hrest].
    destruct (merges current next) eqn:M.
    + apply IH; [|assumption].
      unfold merges in M. apply andb_true_iff in M. destruct M as [M _].
      apply String.eqb_eq in M.
      destruct Hc as (first & _ & Hf & _ & Hfl & _ & Hfs & _).
      destruct Hn as (_ & last & _ & Hl & _ & Hll & _ & Hle).
      exists first, last. simpl.
      unfold track_label, track_start, track_end in *. simpl.
      repeat split; try assumption; congruence.
    + constructor; [exact Hc|]. apply IH; assumption.
Qed.

Lemma from_tracks_self (d : list Track) (t : Track) :
  In t d -> from_tracks d t.
Proof.
  intro H. exists t, t. repeat split; auto.
Qed.

Lemma spec_smooth_from (d : list Track) :
  Forall (from_tracks d) (spec_smooth d).
Proof.
  unfold spec_smooth.
  assert (H : Forall (from_tracks d) (sorted_by track_start d)).
  { apply sorted_by_Forall. apply Forall_forall. apply from_tracks_self. }
  destruct (sorted_by track_start d) as [|first rest]; [constructor|].
  apply Forall_cons_iff in H. destruct H as [Hf Hr].
  apply spec_merge_adjacent_from; assumption.
Qed.

Lemma spec_smooth_separated (d : list Track) :
  chain separated (spec_smooth d).
Proof.
  unfold spec_smooth.
  destruct (sorted_by track_start d) as [|first rest]; [constructor|].
  apply spec_merge_adjacent_separated.
Qed.

(** C5: on the intervals of Scenario 2, given in order or out of order,
    the smoother returns [(0,9,"A"), (9,15,"B")].  In general the smoother
    fills its annotation with the intervals obtained by sorting by start
    and then merging each next interval into the current one when the
    labels are equal and [next.start - current.end < 1.0], extending the
    current end to [next.end]; in that sequence no two consecutive
    intervals of one label are less than 1.0 second apart, and every
    interval runs from the start of an input interval to the end of an
    input interval of its own label: nothing is merged across a change of
    speaker. *)
Theorem diarization_smoothing :
  _post_process_diarization scenario2 = [trk 0 9 "A"; trk 9 15 "B"]
  /\ _post_process_diarization scenario2_unsorted
     = [trk 0 9 "A"; trk 9 15 "B"]
  /\ (forall intervals,
         _post_process_diarization intervals
         = itertracks (annotation_of (spec_smooth intervals) []))
  /\ (forall intervals, chain separated (spec_smooth intervals))
  /\ (forall intervals,
         Forall (from_tracks intervals) (spec_smooth intervals)).
Proof.
  split; [vm_compute; reflexivity|].
  split; [vm_compute; reflexivity|].
  split; [exact post_process_diarization_spec|].
  split; [exact spec_smooth_separated | exact spec_smooth_from].
Qed.

(** *** Sorting intervals with distinct starts *)

Lemma insert_by_strict (x : Track) (l : list Track) :
  StronglySorted earlier l ->
  Forall (fun y => ~ track_start x == track_start y) l ->
  StronglySorted earlier (insert_by track_start x l).
Proof.
  induction l as [|y l IH]; intros Hs Hx; simpl.
  - repeat constructor.
  - apply StronglySorted_inv in Hs. destruct Hs as [Hs Hy].
    apply Forall_cons_iff in Hx. destruct Hx as [Hxy Hx].
    case_Qltb (track_start y) (track_start x) Hlt.
    + constructor; [apply IH; assumption|].
      apply Forall_forall. intros z Hz. apply insert_by_In in Hz.
      destruct Hz as [->|Hz]; [exact Hlt|].
      rewrite Forall_forall in Hy. apply Hy. exact Hz.
    + assert (Hx_y : earlier x y).
      { unfold earlier. destruct (Qlt_le_dec (track_start x) (track_start y))
          as [H|H]; [exact H|].
        exfalso. apply Hxy. apply Qle_antisym; assumption. }
      constructor; [constructor; assumption|].
      constructor; [exact Hx_y|].
      eapply Forall_impl; [|exact Hy]. unfold earlier in *.
      intros z Hz. lra.
Qed.

Lemma sorted_by_strict (d : list Track) :
  distinct_starts d -> StronglySorted earlier (sorted_by track_start d).
Proof.
  induction 1 as [|x d Hx Hd IH]; simpl.
  - constructor.
  - apply insert_by_strict; [exact IH|].
    apply sorted_by_Forall. exact Hx.
Qed.

(** *** Filling an annotation in the order of its segments *)

Lemma annotation_insert_after (segment : Segment) (label : string)
    (a : Annotation) :
  Forall (fun u => track_start u < seg_start segment) a ->
  annotation_insert segment label a = a ++ [(segment, label)].
Proof.
  induction 1 as [|[s l] a Hu Ha IH]; simpl; [reflexivity|].
  unfold track_start in Hu. simpl in Hu.
  assert (E : segment_eqb segment s = false).
  { unfold segment_eqb. destruct (Qeq_bool (seg_start segment) (seg_start s))
      eqn:Q; [|reflexivity].
    apply Qeq_bool_iff in Q. lra. }
  assert (L : segment_ltb segment s = false).
  { unfold segment_ltb.
    destruct (Qeq_bool (seg_start segment) (seg_start s)) eqn:Q.
    - apply Qeq_bool_iff in Q. lra.
    - rewrite andb_false_l, orb_false_r. apply Qltb_ge. lra. }
  rewrite E, L, IH. reflexivity.
Qed.

Lemma annotation_of_strict (tracks : list Track) :
  forall a,
    StronglySorted earlier (a ++ tracks) ->
    Forall nonempty_track tracks ->
    annotation_of tracks a = a ++ tracks.
Proof.
  induction tracks as [|[s l] tracks IH]; intros a Hs Hn; simpl.
  - symmetry. apply app_nil_r.
  - apply Forall_cons_iff in Hn. destruct Hn as [Hsl Hn].
    unfold setitem. unfold nonempty_track in Hsl. simpl in Hsl. rewrite Hsl.
    rewrite annotation_insert_after.
    + rewrite IH; [rewrite <- app_assoc; reflexivity | | exact Hn].
      rewrite <- app_assoc. exact Hs.
    + clear -Hs. induction a as [|u a IHa]; [constructor|].
      simpl in Hs. apply StronglySorted_inv in Hs. destruct Hs as [Hs Hu].
      constructor; [|apply IHa; exact Hs].
      rewrite Forall_forall in Hu. apply (Hu (s, l)).
      apply in_or_app. right. left. reflexivity.
Qed.

(** *** The smoother on intervals with distinct starts *)

Lemma spec_smooth_strict (d : list Track) :
  distinct_starts d -> StronglySorted earlier (spec_smooth d).
Proof.
  intro H. apply sorted_by_strict in H. unfold spec_smooth.
  destruct (sorted_by track_start d) as [|first rest]; [constructor|].
  apply StronglySorted_inv in H. destruct H as [Hrest Hfirst].
  apply spec_merge_adjacent_strict; assumption.
Qed.

Lemma spec_smooth_nonempty (d : list Track) :
  distinct_starts d -> Forall nonempty_track d ->
  Forall nonempty_track (spec_smooth d).
Proof.
  intros H Hn. apply sorted_by_strict in H.
  apply (sorted_by_Forall track_start) in Hn. unfold spec_smooth.
  destruct (sorted_by track_start d) as [|first rest]; [constructor|].
  apply Forall_cons_iff in Hn. destruct Hn as [Hf Hr].
  apply spec_merge_adjacent_nonempty; assumption.
Qed.

Lemma post_process_diarization_distinct (d : list Track) :
  distinct_starts d -> Forall nonempty_track d ->
  _post_process_diarization d = spec_smooth d.
Proof.
  intros H Hn. rewrite post_process_diarization_spec. unfold itertracks.
  apply (annotation_of_strict (spec_smooth d) []).
  - apply spec_smooth_strict. exact H.
  - apply spec_smooth_nonempty; assumption.
Qed.

(** *** The smoothed sequence is a fixed point of sorting and merging *)

Lemma insert_by_sorted (x : Track) (l : list Track) :
  StronglySorted not_later l ->
  StronglySorted not_later (insert_by track_start x l).
Proof.
  induction l as [|y l IH]; intros Hs; simpl.
  - repeat constructor.
  - apply StronglySorted_inv in Hs. destruct Hs as [Hs Hy].
    case_Qltb (track_start y) (track_start x) Hlt.
    + constructor; [apply IH; assumption|].
      apply Forall_forall. intros z Hz. apply insert_by_In in Hz.
      destruct Hz as [->|Hz]; [unfold not_later; lra|].
      rewrite Forall_forall in Hy. apply Hy. exact Hz.
    + constructor; [constructor; assumption|].
      constructor; [exact Hlt|].
      eapply Forall_impl; [|exact Hy]. unfold not_later in *.
      intros z Hz. lra.
Qed.

Lemma sorted_by_sorted (d : list Track) :
  StronglySorted not_later (sorted_by track_start d).
Proof.
  induction d as [|x d IH]; simpl; [constructor|].
  apply insert_by_sorted. exact IH.
Qed.

(** Sorting a list that is sorted returns it. *)
Lemma sorted_by_fixed (l : list Track) :
  StronglySorted not_later l -> sorted_by track_start l = l.
Proof.
  induction 1 as [|x l Hl IH Hx]; simpl; [reflexivity|].
  rewrite IH. destruct l as [|y l]; [reflexivity|]. simpl.
  apply Forall_cons_iff in Hx. destruct Hx as [Hxy _].
  unfold not_later in Hxy.
  case_Qltb (track_start y) (track_start x) H; [lra | reflexivity].
Qed.

Lemma spec_merge_adjacent_sorted (rest : list Track) :
  forall current,
    StronglySorted not_later (current :: rest) ->
    StronglySorted not_later (spec_merge_adjacent current rest).
Proof.
  induction rest as [|next rest IH]; intros current Hs; simpl.
  - exact Hs.
  - apply StronglySorted_inv in Hs. destruct Hs as [Hrest Hc].
    apply Forall_cons_iff in Hc. destruct Hc as [Hn Hc].
    destruct (merges current next).
    + apply IH. apply StronglySorted_inv in Hrest. destruct Hrest as [Hrest _].
      constructor; [exact Hrest | exact Hc].
    + constructor; [apply IH; exact Hrest|].
      apply (spec_merge_adjacent_starts (fun q => track_start current <= q));
        assumption.
Qed.

Lemma spec_smooth_sorted (d : list Track) :
  StronglySorted not_later (spec_smooth d).
Proof.
  unfold spec_smooth. pose proof (sorted_by_sorted d) as H.
  destruct (sorted_by track_start d) as [|first rest]; [constructor|].
  apply spec_merge_adjacent_sorted. exact H.
Qed.

Lemma spec_smooth_idempotent (d : list Track) :
  spec_smooth (spec_smooth d) = spec_smooth d.
Proof.
  pose proof (spec_smooth_sorted d) as Hs.
  pose proof (spec_smooth_separated d) as Hc.
  unfold spec_smooth at 1. rewrite (sorted_by_fixed _ Hs).
  destruct (spec_smooth d) as [|first rest]; [reflexivity|].
  apply spec_merge_adjacent_fixed. exact Hc.
Qed.

(** C6, as stated, fails when two intervals start together.  The
    annotation yields its tracks by start and then by end; here B is cut
    to (0,1) and comes out before A (0,3), so that in the output A (0,3)
    is followed by A (3.5,4), half a second later: the second run merges
    them. *)
Lemma smoothing_not_idempotent :
  _post_process_diarization tied_tracks
  = [trk 0 1 "B"; trk 0 3 "A"; trk 3.5 4 "A"]
  /\ _post_process_diarization (_post_process_diarization tied_tracks)
     = [trk 0 1 "B"; trk 0 4 "A"]
  /\ _post_process_diarization (_post_process_diarization tied_tracks)
     <> _post_process_diarization tied_tracks.
Proof.
  split; [vm_compute; reflexivity|].
  split; [vm_compute; reflexivity|].
  vm_compute. discriminate.
Qed.

(** C6 (amended): for every interval list, the sequence of intervals the
    smoother produces by sorting and merging is left unchanged by sorting
    and merging it again (no further same-speaker merge is possible in
    it); and for every list of non-empty intervals no two of which start
    at the same time, applying the smoother to its own output yields
    exactly the same output. *)
Theorem smoothing_idempotent :
  (forall intervals : list Track,
      spec_smooth (spec_smooth intervals) = spec_smooth intervals)
  /\ (forall intervals : list Track,
         distinct_starts intervals ->
         Forall nonempty_track intervals ->
         _post_process_diarization (_post_process_diarization intervals)
         = _post_process_diarization intervals).
Proof.
  split; [exact spec_smooth_idempotent|].
  intros d H Hn.
  rewrite (post_process_diarization_distinct d H Hn).
  rewrite post_process_diarization_spec, spec_smooth_idempotent.
  unfold itertracks.
  apply (annotation_of_strict (spec_smooth d) []).
  - apply spec_smooth_strict. exact H.
  - apply spec_smooth_nonempty; assumption.
Qed.

Lemma smoothing_idempotent_witness :
  _post_process_diarization (_post_process_diarization spaced_tracks)
  = _post_process_diarization spaced_tracks.
Proof.
  apply (proj2 smoothing_idempotent spaced_tracks).
  - repeat constructor; vm_compute; discriminate.
  - repeat constructor.
Defined.

(** ** Hallucination filter *)

Lemma list_pair_ind {A : Type} (P : list A -> Prop) :
  P [] -> (forall x, P [x]) -> (forall x y l, P l -> P (x :: y :: l)) ->
  forall l, P l.
Proof.
  intros H0 H1 H2. fix IH 1.
  intros [|x [|y l]]; [exact H0 | exact (H1 x) | exact (H2 x y l (IH l))].
Qed.

Lemma is_empty_false (s : string) : is_empty s = false -> s <> "".
Proof.
  intros H ->. discriminate.
Qed.

Lemma is_empty_true (s : string) : is_empty s = true <-> s = "".
Proof.
  destruct s; simpl; split; intro H; try reflexivity; discriminate.
Qed.

Lemma timed_chunks_step (part_i part_i1 : string) (tail : list string) :
  timed_chunks (part_i :: part_i1 :: tail) =
  match float_of part_i with
  | None => timed_chunks tail
  | Some start_time =>
      match match tail with
            | part_i2 :: _ => float_of part_i2
            | [] => Some (start_time + 2.0)
            end with
      | None => timed_chunks tail
      | Some end_time =>
          if Qle_bool end_time start_time then timed_chunks tail
          else if is_empty (strip part_i1)
                  || contains (strip part_i1) ".,?!:"
          then timed_chunks tail
          else if (4 <? List.length (split (strip part_i1)))%nat
                  && (count_unique (split (strip part_i1)) =? 1)%nat
          then timed_chunks tail
          else {| timestamp := (start_time, end_time);
                  text := strip part_i1 |} :: timed_chunks tail
      end
  end.
Proof. reflexivity. Qed.

Lemma timed_chunks_well_timed (parts : list string) :
  Forall well_timed (timed_chunks parts).
Proof.
  induction parts as [| |part_i part_i1 tail IH] using list_pair_ind.
  - constructor.
  - constructor.
  - rewrite timed_chunks_step.
    destruct (float_of part_i) as [start_time|]; [|exact IH].
    destruct (match tail with
              | [] => Some (start_time + 2.0)
              | part_i2 :: _ => float_of part_i2
              end) as [end_time|]; [|exact IH].
    destruct (Qle_bool end_time start_time) eqn:E; [exact IH|].
    destruct (is_empty (strip part_i1)) eqn:N; [exact IH|].
    rewrite orb_false_l.
    destruct (contains (strip part_i1) ".,?!:"); [exact IH|].
    destruct ((4 <? List.length (split (strip part_i1)))%nat
              && (count_unique (split (strip part_i1)) =? 1)%nat);
      [exact IH|].
    constructor; [|exact IH]. split; simpl.
    + apply Qle_bool_gt. exact E.
    + apply is_empty_false. exact N.
Qed.

Lemma fallback_chunks_cases (text : string) :
  (clean_text text <> "" /\ (String.length (clean_text text) < 200)%nat
   /\ fallback_chunks text = [synthetic_chunk text])
  \/ ((clean_text text = "" \/ (200 <= String.length (clean_text text))%nat)
      /\ fallback_chunks text = []).
Proof.
  unfold fallback_chunks.
  destruct (is_empty (clean_text text)) eqn:N; simpl.
  - right. split; [left; apply is_empty_true; exact N | reflexivity].
  - destruct (String.length (clean_text text) <? 200)%nat eqn:L.
    + left. apply Nat.ltb_lt in L. apply is_empty_false in N. auto.
    + right. apply Nat.ltb_ge in L. auto.
Qed.

Lemma no_marker_no_chunks (block : string) :
  no_marker_parsed block -> parsed_chunks block = [].
Proof.
  unfold no_marker_parsed, parsed_chunks.
  destruct (re_split_timestamps block) as [|p [|q parts]];
    simpl; intro H; try reflexivity; discriminate.
Qed.

(** C7, as stated, fails: a block of eleven times the same word has no
    marker, is not empty and has 32 characters, yet it is discarded as a
    repetition loop before the fallback is reached, and no synthetic chunk
    is emitted. *)
Lemma fallback_not_exactly_unmarked :
  no_marker_parsed loop_block
  /\ clean_text loop_block <> ""
  /\ (String.length (clean_text loop_block) < 200)%nat
  /\ chunks (_parse_whisper_output loop_block) = []
  /\ chunks (_parse_whisper_output loop_block)
     <> [synthetic_chunk loop_block].
Proof.
  split; [|split; [|split; [|split]]].
  - reflexivity.
  - discriminate.
  - vm_compute. lia.
  - reflexivity.
  - discriminate.
Qed.

(** The fallback is entered whenever the loop of the parser has collected
    no chunk.  A block with two markers around a lone full stop has its
    only timed chunk dropped by the punctuation filter and the full stop
    comes back as the synthetic chunk, although the comment above the
    fallback speaks of timestamps that could not be generated.  The
    amended claim below says nothing about blocks of this kind. *)
Example filtered_block_falls_back :
  ~ no_marker_parsed stop_block
  /\ parsed_chunks stop_block = []
  /\ chunks (_parse_whisper_output stop_block) = [mkChunk (0.0, 2.0) "."].
Proof.
  split; [discriminate | split; reflexivity].
Qed.

(** C7 (amended): a block discarded as a repetition loop yields no chunk,
    whatever its length.  For a block that is not a repetition loop and
    in which no timestamp marker was parsed, the filter emits the single
    synthetic chunk [(0.0, 2.0, t)], with [t] the block without its
    [<|...|>] tokens, stripped, exactly when [t] is not empty and shorter
    than 200 characters; un-timestamped text of 200 characters or more is
    dropped entirely.  When timed chunks were collected they are
    returned, each with [start < end] and a non-empty text, and no
    synthetic chunk is added. *)
Theorem hallucination_filter_fallback :
  forall block : string,
    (is_repetition_loop block = true ->
     chunks (_parse_whisper_output block) = [])
    /\ (is_repetition_loop block = false -> no_marker_parsed block ->
        (clean_text block <> ""
         /\ (String.length (clean_text block) < 200)%nat ->
         chunks (_parse_whisper_output block) = [synthetic_chunk block])
        /\ (clean_text block = ""
            \/ (200 <= String.length (clean_text block))%nat ->
            chunks (_parse_whisper_output block) = []))
    /\ (is_repetition_loop block = false -> parsed_chunks block <> [] ->
        chunks (_parse_whisper_output block) = parsed_chunks block
        /\ Forall well_timed (chunks (_parse_whisper_output block))).
Proof.
  intro block. split; [|split].
  - unfold _parse_whisper_output. intros ->. reflexivity.
  - intros Hloop Hmarker. apply no_marker_no_chunks in Hmarker.
    unfold _parse_whisper_output, parsed_chunks in *.
    rewrite Hloop, Hmarker. simpl.
    destruct (fallback_chunks_cases block) as [(Hn & Hl & ->)|[H ->]]; split.
    + reflexivity.
    + intros [E|L]; [contradiction | lia].
    + intros [Hn Hl]. destruct H as [E|L]; [contradiction | lia].
    + reflexivity.
  - unfold _parse_whisper_output, parsed_chunks. intros -> H.
    pose proof (timed_chunks_well_timed (tl (re_split_timestamps block)))
      as Hw.
    destruct (timed_chunks (tl (re_split_timestamps block)));
      [contradiction|].
    simpl. split; [reflexivity | exact Hw].
Qed.

Lemma hallucination_filter_fallback_witness :
  chunks (_parse_whisper_output loop_block) = []
  /\ chunks (_parse_whisper_output plain_block) = [synthetic_chunk plain_block]
  /\ chunks (_parse_whisper_output timed_block) = parsed_chunks timed_block.
Proof.
  split; [|split].
  - apply (proj1 (hallucination_filter_fallback loop_block)). reflexivity.
  - apply (proj1 (proj2 (hallucination_filter_fallback plain_block))).
    + reflexivity.
    + reflexivity.
    + split; [discriminate | vm_compute; lia].
  - apply (proj2 (proj2 (hallucination_filter_fallback timed_block))).
    + reflexivity.
    + discriminate.
Defined.

(** * Further properties of the stages *)

(** ** Chunk merger: what it leaves alone, and the span it keeps *)

Lemma stitches_false (prev current : Chunk) :
  lightly_overlapping prev current -> stitches prev current = false.
Proof.
  unfold lightly_overlapping, stitches. intros [H|H].
  - apply (proj2 (Qltb_ge (ts0 current) (ts1 prev))) in H. rewrite H.
    reflexivity.
  - apply (proj2 (Qltb_ge ((ts1 prev - ts0 prev) * 0.5)
                    (ts1 prev - ts0 current))) in H.
    rewrite H. rewrite andb_false_r. reflexivity.
Qed.

Lemma merge_from_light (rest : list Chunk) :
  forall prev,
    chain lightly_overlapping (prev :: rest) ->
    merge_from prev rest = prev :: rest.
Proof.
  induction rest as [|current rest IH]; intros prev H; simpl.
  - reflexivity.
  - inversion H; subst.
    rewrite stitches_false by assumption.
    f_equal. apply IH. assumption.
Qed.

(** X1: chunks each of which overlaps its predecessor by at most half of
    the predecessor's duration are returned as they are. *)
Theorem light_overlap_unchanged :
  forall chunks : list Chunk,
    chain lightly_overlapping chunks ->
    _merge_overlapping_chunks chunks = chunks.
Proof.
  intros [|first rest] H; [reflexivity|].
  rewrite merge_overlapping_chunks_cons. apply merge_from_light. exact H.
Qed.

Lemma light_overlap_unchanged_witness :
  _merge_overlapping_chunks light_chunks = light_chunks.
Proof.
  apply (light_overlap_unchanged light_chunks).
  apply chain_cons; [right; vm_compute; discriminate|].
  apply chain_cons; [left; vm_compute; discriminate|].
  apply chain_one.
Defined.

Lemma last_cons {A : Type} (l : list A) :
  forall x d, last (x :: l) d = last l x.
Proof.
  induction l as [|y l IH]; intros x d; [reflexivity|].
  change (last (x :: y :: l) d) with (last (y :: l) d).
  rewrite (IH y d), (IH y x). reflexivity.
Qed.

Lemma merge_from_span (rest : list Chunk) :
  forall prev, exists first tail,
    merge_from prev rest = first :: tail
    /\ ts0 first = ts0 prev
    /\ ts1 (last tail first) = ts1 (last rest prev).
Proof.
  induction rest as [|current rest IH]; intros prev.
  - exists prev, []. repeat split.
  - simpl merge_from. destruct (stitches prev current).
    + destruct (IH (stitched prev current)) as (f & t & E & Hs & He).
      exists f, t. rewrite E. repeat split; [exact Hs|].
      rewrite He, last_cons. destruct rest as [|c rest]; [reflexivity|].
      rewrite !last_cons. reflexivity.
    + destruct (IH current) as (f & t & E & Hs & He).
      exists prev, (f :: t). rewrite E. repeat split.
      rewrite !last_cons. exact He.
Qed.

(** X2: the merged chunks span the input: the first merged chunk starts
    where the first input chunk starts, the last merged chunk ends where
    the last input chunk ends, and there are at least one and at most as
    many merged chunks as input chunks. *)
Theorem merged_chunks_span :
  forall (first : Chunk) (rest : list Chunk),
  exists first' tail,
    _merge_overlapping_chunks (first :: rest) = first' :: tail
    /\ ts0 first' = ts0 first
    /\ ts1 (last (first' :: tail) first') = ts1 (last (first :: rest) first)
    /\ (List.length (first' :: tail) <= List.length (first :: rest))%nat.
Proof.
  intros first rest.
  destruct (merge_from_span rest first) as (f & t & E & Hs & He).
  exists f, t. rewrite merge_overlapping_chunks_cons, !last_cons.
  repeat split; try assumption.
  rewrite <- E. apply merge_from_length.
Qed.

(** ** Hallucination filter: what it returns *)

Lemma parse_whisper_output_well_timed (block : string) :
  Forall well_timed (chunks (_parse_whisper_output block)).
Proof.
  unfold _parse_whisper_output.
  destruct (is_repetition_loop block); [constructor|].
  pose proof (timed_chunks_well_timed (tl (re_split_timestamps block))) as Hw.
  destruct (timed_chunks (tl (re_split_timestamps block))) as [|c cs].
  - simpl.
    destruct (fallback_chunks_cases block) as [(Hn & _ & ->)|[_ ->]];
      [|constructor].
    constructor; [|constructor]. split; [reflexivity | exact Hn].
  - exact Hw.
Qed.

(** X3: whatever the decoded block, every chunk the parser returns has
    [start < end] and a non-empty text, the synthetic chunk included.  The
    returned text is the block itself, except for a block discarded as a
    repetition loop, for which the text is empty and no chunk is
    returned. *)
Theorem parser_chunks_well_timed :
  forall block : string,
    Forall well_timed (chunks (_parse_whisper_output block))
    /\ parsed_text (_parse_whisper_output block)
       = (if is_repetition_loop block then "" else block)
    /\ (is_repetition_loop block = true ->
        chunks (_parse_whisper_output block) = []).
Proof.
  intro block. split; [apply parse_whisper_output_well_timed|].
  unfold _parse_whisper_output.
  destruct (is_repetition_loop block);
    [split; [reflexivity | intros _; reflexivity]|].
  destruct (timed_chunks (tl (re_split_timestamps block)));
    (split; [reflexivity | discriminate]).
Qed.

(** ** Alignment *)

Lemma aligned_of_assigned (speaker_segments : list SpeakerSegment)
    (chunk : Chunk) :
  aligned_of speaker_segments chunk =
  if Qle_bool (ts1 chunk - ts0 chunk) 0 then []
  else [mkAligned (ts0 chunk) (ts1 chunk)
          (assigned_speaker (ts0 chunk) (ts1 chunk) speaker_segments)
          (text chunk)].
Proof.
  unfold aligned_of, align_chunk, assigned_speaker.
  destruct (Qle_bool (ts1 chunk - ts0 chunk) 0); [reflexivity|].
  destruct (fold_left (overlap_step (ts0 chunk) (ts1 chunk))
              speaker_segments []) as [|[k v] stats]; reflexivity.
Qed.

(** X4: the alignment returns one segment for each chunk of positive
    duration, in the order of the chunks, with the start, the end and the
    text of the chunk; chunks of zero or negative duration are skipped. *)
Theorem alignment_keeps_positive_chunks :
  forall (whisper_chunks : list Chunk)
         (speaker_segments : list SpeakerSegment),
    map (fun r => (r_start r, r_end r, r_text r))
      (_align_whisper_with_diarization whisper_chunks speaker_segments)
    = map (fun c => (ts0 c, ts1 c, text c))
        (filter (fun c => negb (Qle_bool (ts1 c - ts0 c) 0)) whisper_chunks).
Proof.
  intros whisper_chunks speaker_segments.
  rewrite align_whisper_with_diarization_flat_map.
  induction whisper_chunks as [|chunk rest IH]; simpl; [reflexivity|].
  rewrite map_app, IH, aligned_of_assigned.
  destruct (Qle_bool (ts1 chunk - ts0 chunk) 0); reflexivity.
Qed.

Lemma overlap_with_nonneg (w_start w_end : Q) (seg : SpeakerSegment) :
  0 <= overlap_with w_start w_end seg.
Proof.
  unfold overlap_with.
  destruct (py_max_cases 0 (py_min w_end (spk_end seg)
                            - py_max w_start (spk_start seg)))
    as [[H ->]|[H ->]]; lra.
Qed.

Lemma speaker_overlap_nonneg (w_start w_end : Q) (speaker : string)
    (segs : list SpeakerSegment) :
  0 <= speaker_overlap w_start w_end speaker segs.
Proof.
  induction segs as [|seg segs IH]; simpl; [lra|].
  pose proof (overlap_with_nonneg w_start w_end seg).
  destruct (String.eqb (spk_speaker seg) speaker); lra.
Qed.

Lemma speaker_overlap_ge (w_start w_end : Q) (seg : SpeakerSegment)
    (segs : list SpeakerSegment) :
  In seg segs ->
  overlap_with w_start w_end seg
  <= speaker_overlap w_start w_end (spk_speaker seg) segs.
Proof.
  induction segs as [|s segs IH]; [intros []|]. intros [->|H]; simpl.
  - rewrite String.eqb_refl.
    pose proof (speaker_overlap_nonneg w_start w_end (spk_speaker seg) segs).
    lra.
  - specialize (IH H). pose proof (overlap_with_nonneg w_start w_end s).
    destruct (String.eqb (spk_speaker s) (spk_speaker seg)); lra.
Qed.

(** *** The dictionary of overlaps *)

Lemma stats_add_keys (speaker : string) (d : Q) (stats : OverlapStats) :
  map fst (stats_add speaker d stats) =
  if in_dec string_dec speaker (map fst stats) then map fst stats
  else map fst stats ++ [speaker].
Proof.
  induction stats as [|[k v] stats IH]; simpl; [reflexivity|].
  destruct (String.eqb_spec k speaker) as [->|Hne]; simpl.
  - destruct (string_dec speaker speaker); [reflexivity | congruence].
  - rewrite IH. destruct (string_dec k speaker); [congruence|].
    destruct (in_dec string_dec speaker (map fst stats)); reflexivity.
Qed.

Lemma stats_add_entries (speaker : string) (d : Q) (stats : OverlapStats) :
  NoDup (map fst stats) ->
  forall k v,
    In (k, v) (stats_add speaker d stats) ->
    (k <> speaker /\ In (k, v) stats)
    \/ (k = speaker
        /\ ((exists v0, In (speaker, v0) stats /\ v = v0 + d)
            \/ (~ In speaker (map fst stats) /\ v = 0 + d))).
Proof.
  induction stats as [|[k0 v0] stats IH]; intros Hnd k v; simpl.
  - intros [[= <- <-]|[]]. right. split; [reflexivity|]. right. tauto.
  - apply NoDup_cons_iff in Hnd. simpl in Hnd. destruct Hnd as [Hk0 Hnd].
    destruct (String.eqb_spec k0 speaker) as [->|Hne]; simpl.
    + intros [[= <- <-]|H].
      * right. split; [reflexivity|]. left. exists v0. auto.
      * left. split; [|right; exact H].
        intros ->. apply Hk0. apply (in_map fst _ _ H).
    + intros [[= <- <-]|H]; [left; auto|].
      destruct (IH Hnd k v H) as [[Hk Hin]|[-> [[v1 [Hin ->]]|[Hnot ->]]]].
      * left. auto.
      * right. split; [reflexivity|]. left. exists v1. auto.
      * right. split; [reflexivity|]. right. split; [|reflexivity].
        intros [E|Hin]; [congruence | contradiction].
Qed.

Lemma stats_inv_ext (f g : string -> Q) (stats : OverlapStats) :
  (forall k, f k == g k) -> stats_inv f stats -> stats_inv g stats.
Proof.
  intros Hfg (Hnd & Hin & Hout). repeat split.
  - exact Hnd.
  - rewrite <- Hfg. apply (Hin k v H).
  - apply (Hin k v H).
  - intros k Hk. rewrite <- Hfg. apply Hout. exact Hk.
Qed.

Lemma stats_add_inv (f : string -> Q) (speaker : string) (d : Q)
    (stats : OverlapStats) :
  0 < d -> stats_inv f stats ->
  stats_inv (fun k => f k + (if String.eqb speaker k then d else 0))
    (stats_add speaker d stats).
Proof.
  intros Hd (Hnd & Hin & Hout). repeat split.
  - rewrite stats_add_keys.
    destruct (in_dec string_dec speaker (map fst stats)); [exact Hnd|].
    apply NoDup_app; [exact Hnd | repeat constructor; intros [] |].
    intros x Hx [<-|[]]. contradiction.
  - apply stats_add_entries in H; [|exact Hnd].
    destruct H as [[Hk H]|[-> [[v0 [H ->]]|[Hnot ->]]]].
    + destruct (String.eqb_spec speaker k); [congruence|].
      destruct (Hin k v H). lra.
    + rewrite String.eqb_refl. destruct (Hin speaker v0 H). lra.
    + rewrite String.eqb_refl. pose proof (Hout speaker Hnot). lra.
  - apply stats_add_entries in H; [|exact Hnd].
    destruct H as [[Hk H]|[-> [[v0 [H ->]]|[Hnot ->]]]].
    + destruct (Hin k v H). lra.
    + destruct (Hin speaker v0 H). lra.
    + lra.
  - intros k Hk. rewrite stats_add_keys in Hk.
    destruct (String.eqb_spec speaker k) as [->|Hne].
    + exfalso. apply Hk.
      destruct (in_dec string_dec k (map fst stats)); [assumption|].
      apply in_or_app. right. left. reflexivity.
    + assert (Hk' : ~ In k (map fst stats)).
      { intro H. apply Hk.
        destruct (in_dec string_dec speaker (map fst stats)); [assumption|].
        apply in_or_app. left. exact H. }
      pose proof (Hout k Hk'). lra.
Qed.

Lemma overlap_step_inv (w_start w_end : Q) (f : string -> Q)
    (stats : OverlapStats) (seg : SpeakerSegment) :
  stats_inv f stats ->
  stats_inv
    (fun k => f k + (if String.eqb (spk_speaker seg) k
                     then overlap_with w_start w_end seg else 0))
    (overlap_step w_start w_end stats seg).
Proof.
  intro H. unfold overlap_step. fold (overlap_with w_start w_end seg).
  case_Qltb 0 (overlap_with w_start w_end seg) Hpos.
  - apply stats_add_inv; assumption.
  - apply (stats_inv_ext f); [|exact H].
    intro k. pose proof (overlap_with_nonneg w_start w_end seg).
    destruct (String.eqb (spk_speaker seg) k); lra.
Qed.

Lemma fold_overlap_step_inv (w_start w_end : Q)
    (segs : list SpeakerSegment) :
  forall f stats,
    stats_inv f stats ->
    stats_inv (fun k => f k + speaker_overlap w_start w_end k segs)
      (fold_left (overlap_step w_start w_end) segs stats).
Proof.
  induction segs as [|seg segs IH]; intros f stats H; simpl.
  - apply (stats_inv_ext f); [intro k; lra | exact H].
  - apply (overlap_step_inv w_start w_end) with (seg := seg) in H.
    apply IH in H. eapply stats_inv_ext; [|exact H].
    intro k. simpl. lra.
Qed.

Lemma overlap_stats_inv (w_start w_end : Q) (segs : list SpeakerSegment) :
  stats_inv (fun k => speaker_overlap w_start w_end k segs)
    (fold_left (overlap_step w_start w_end) segs []).
Proof.
  eapply stats_inv_ext;
    [|apply (fold_overlap_step_inv w_start w_end segs (fun _ => 0) [])].
  - intro k. simpl. lra.
  - split; [constructor|]. split.
    + intros k v [].
    + intros k _. reflexivity.
Qed.

Lemma max_key_max (stats : OverlapStats) :
  forall k v, exists best,
    In (max_key k v stats, best) ((k, v) :: stats)
    /\ v <= best
    /\ (forall k' v', In (k', v') stats -> v' <= best).
Proof.
  induction stats as [|[k1 v1] stats IH]; intros k v; simpl.
  - exists v. repeat split; [auto | lra | contradiction].
  - case_Qltb v v1 Hlt.
    + destruct (IH k1 v1) as (best & Hin & Hle & Hall).
      exists best. repeat split; [right; exact Hin | lra |].
      intros k' v' [[= <- <-]|H]; [exact Hle | exact (Hall k' v' H)].
    + destruct (IH k v) as (best & Hin & Hle & Hall).
      exists best. repeat split.
      * destruct Hin as [Hin|Hin]; [left; exact Hin | right; right; exact Hin].
      * exact Hle.
      * intros k' v' [[= <- <-]|H]; [lra | exact (Hall k' v' H)].
Qed.

Lemma assigned_speaker_dominant (w_start w_end : Q)
    (segs : list SpeakerSegment) :
  (exists seg, In seg segs /\ 0 < overlap_with w_start w_end seg) ->
  0 < speaker_overlap w_start w_end (assigned_speaker w_start w_end segs) segs
  /\ forall other,
      speaker_overlap w_start w_end other segs
      <= speaker_overlap w_start w_end
           (assigned_speaker w_start w_end segs) segs.
Proof.
  intros (seg & Hseg & Hpos).
  pose proof (overlap_stats_inv w_start w_end segs) as (Hnd & Hin & Hout).
  pose proof (speaker_overlap_ge w_start w_end seg segs Hseg) as Hge.
  unfold assigned_speaker.
  destruct (fold_left (overlap_step w_start w_end) segs [])
    as [|[k v] stats].
  - pose proof (Hout (spk_speaker seg) (fun H => H)). lra.
  - destruct (max_key_max stats k v) as (best & Hbest & Hv & Hall).
    destruct (Hin _ _ Hbest) as [Ebest Hbpos]. split; [lra|].
    intro other.
    destruct (in_dec string_dec other (map fst ((k, v) :: stats)))
      as [Hk|Hk].
    + apply in_map_iff in Hk. destruct Hk as ([k' v'] & <- & Hk).
      destruct (Hin _ _ Hk) as [E _]. simpl. rewrite <- E, <- Ebest.
      destruct Hk as [[= <- <-]|Hk]; [exact Hv | exact (Hall _ _ Hk)].
    + rewrite (Hout other Hk). lra.
Qed.

(** X5: a chunk of positive duration that overlaps some speaker segment
    is given a dominant speaker: a speaker whose total overlap with the
    chunk is positive and not smaller than that of any other speaker. *)
Theorem alignment_dominant_speaker :
  forall (chunk : Chunk) (speaker_segments : list SpeakerSegment),
    0 < ts1 chunk - ts0 chunk ->
    (exists seg,
        In seg speaker_segments
        /\ 0 < overlap_with (ts0 chunk) (ts1 chunk) seg) ->
    exists speaker,
      _align_whisper_with_diarization [chunk] speaker_segments
      = [mkAligned (ts0 chunk) (ts1 chunk) speaker (text chunk)]
      /\ 0 < speaker_overlap (ts0 chunk) (ts1 chunk) speaker speaker_segments
      /\ forall other,
          speaker_overlap (ts0 chunk) (ts1 chunk) other speaker_segments
          <= speaker_overlap (ts0 chunk) (ts1 chunk) speaker
               speaker_segments.
Proof.
  intros chunk segs Hd Hex.
  exists (assigned_speaker (ts0 chunk) (ts1 chunk) segs). split.
  - rewrite align_whisper_with_diarization_flat_map. simpl.
    rewrite app_nil_r, aligned_of_assigned.
    apply Qle_bool_gt in Hd. rewrite Hd. reflexivity.
  - apply assigned_speaker_dominant. exact Hex.
Qed.

(** A chunk from 2 to 9 overlaps A for one second and B for six. *)
Lemma alignment_dominant_speaker_witness :
  exists speaker,
    _align_whisper_with_diarization [mkChunk (2, 9) "x"] two_speakers
    = [mkAligned 2 9 speaker "x"]
    /\ 0 < speaker_overlap 2 9 speaker two_speakers
    /\ forall other,
        speaker_overlap 2 9 other two_speakers
        <= speaker_overlap 2 9 speaker two_speakers.
Proof.
  apply (alignment_dominant_speaker (mkChunk (2, 9) "x") two_speakers).
  - reflexivity.
  - exists (mkSpeakerSegment 0 3 "A"). split; [left; reflexivity|].
    reflexivity.
Defined.

(** *** The nearest speaker *)

Lemma fold_nearest_step (mid_point : Q) (dist : SpeakerSegment -> Q)
    (rest : list SpeakerSegment) :
  (forall seg,
      dist seg = Qabs (mid_point - (spk_start seg + spk_end seg) / 2)) ->
  forall done seg0,
    In seg0 done ->
    (forall other, In other done -> dist seg0 <= dist other) ->
    exists seg,
      In seg (done ++ rest)
      /\ snd (fold_left (nearest_step mid_point) rest
                (Some (dist seg0), spk_speaker seg0))
         = spk_speaker seg
      /\ forall other, In other (done ++ rest) -> dist seg <= dist other.
Proof.
  intro Hdist.
  induction rest as [|s rest IH]; intros done seg0 Hin Hmin.
  - exists seg0. rewrite app_nil_r. auto.
  - cbn [fold_left].
    assert (Est : nearest_step mid_point
                    (Some (dist seg0), spk_speaker seg0) s
                  = if Qltb (dist s) (dist seg0)
                    then (Some (dist s), spk_speaker s)
                    else (Some (dist seg0), spk_speaker seg0)).
    { unfold nearest_step. rewrite <- Hdist. reflexivity. }
    rewrite Est. clear Est.
    case_Qltb (dist s) (dist seg0) Hlt.
    + destruct (IH (done ++ [s]) s) as (seg & Hseg & Hbest & Hall).
      * apply in_or_app. right. left. reflexivity.
      * intros other Ho. apply in_app_or in Ho.
        destruct Ho as [Ho|[<-|[]]]; [|lra].
        specialize (Hmin other Ho). lra.
      * exists seg. rewrite <- app_assoc in Hseg, Hall. auto.
    + destruct (IH (done ++ [s]) seg0) as (seg & Hseg & Hbest & Hall).
      * apply in_or_app. left. exact Hin.
      * intros other Ho. apply in_app_or in Ho.
        destruct Ho as [Ho|[<-|[]]]; [exact (Hmin other Ho) | exact Hlt].
      * exists seg. rewrite <- app_assoc in Hseg, Hall. auto.
Qed.

Lemma find_nearest_speaker_min (start end_ : Q)
    (first : SpeakerSegment) (rest : list SpeakerSegment) :
  exists seg,
    In seg (first :: rest)
    /\ _find_nearest_speaker start end_ (first :: rest) = spk_speaker seg
    /\ forall other,
        In other (first :: rest) ->
        mid_distance start end_ seg <= mid_distance start end_ other.
Proof.
  unfold _find_nearest_speaker. cbn [fold_left].
  apply (fold_nearest_step ((start + end_) / 2) (mid_distance start end_)
           rest (fun seg => eq_refl) [first] first).
  - left. reflexivity.
  - intros other [<-|[]]. apply Qle_refl.
Qed.

(** X6: without speaker segments the nearest speaker is the default
    ["SPEAKER_00"]; otherwise it is the speaker of a segment whose
    midpoint is at the smallest distance from the midpoint of the
    interval. *)
Theorem nearest_speaker_minimal :
  forall (start end_ : Q),
    _find_nearest_speaker start end_ [] = "SPEAKER_00"
    /\ forall (first : SpeakerSegment) (rest : list SpeakerSegment),
        exists seg,
          In seg (first :: rest)
          /\ _find_nearest_speaker start end_ (first :: rest)
             = spk_speaker seg
          /\ forall other,
              In other (first :: rest) ->
              mid_distance start end_ seg <= mid_distance start end_ other.
Proof.
  intros start end_. split; [reflexivity|].
  apply find_nearest_speaker_min.
Qed.

(** *** The speakers the alignment can return *)

Lemma fold_overlap_step_keys (w_start w_end : Q)
    (segs : list SpeakerSegment) :
  forall stats k,
    In k (map fst (fold_left (overlap_step w_start w_end) segs stats)) ->
    In k (map fst stats) \/ In k (map spk_speaker segs).
Proof.
  induction segs as [|seg segs IH]; intros stats k H; simpl in *.
  - left. exact H.
  - apply IH in H. destruct H as [H|H]; [|right; right; exact H].
    unfold overlap_step in H.
    destruct (Qltb 0 _); [|left; exact H].
    rewrite stats_add_keys in H.
    destruct (in_dec string_dec (spk_speaker seg) (map fst stats));
      [left; exact H|].
    apply in_app_or in H. destruct H as [H|[<-|[]]]; [left; exact H|].
    right. left. reflexivity.
Qed.

Lemma assigned_speaker_known (w_start w_end : Q)
    (first : SpeakerSegment) (rest : list SpeakerSegment) :
  In (assigned_speaker w_start w_end (first :: rest))
    (map spk_speaker (first :: rest)).
Proof.
  unfold assigned_speaker.
  pose proof (fold_overlap_step_keys w_start w_end (first :: rest) []) as Hk.
  destruct (fold_left (overlap_step w_start w_end) (first :: rest) [])
    as [|[k v] stats].
  - destruct (find_nearest_speaker_min w_start w_end first rest)
      as (seg & Hseg & -> & _).
    apply in_map. exact Hseg.
  - destruct (max_key_max stats k v) as (best & Hbest & _).
    destruct (Hk (max_key k v stats)) as [[]|H]; [|exact H].
    apply (in_map fst _ _ Hbest).
Qed.

(** X7: when there is at least one speaker segment, every aligned segment
    carries the speaker of one of the speaker segments: the default label
    is used only when there is none. *)
Theorem alignment_speaker_known :
  forall (whisper_chunks : list Chunk)
         (first : SpeakerSegment) (rest : list SpeakerSegment),
    Forall (fun r => In (r_speaker r) (map spk_speaker (first :: rest)))
      (_align_whisper_with_diarization whisper_chunks (first :: rest)).
Proof.
  intros whisper_chunks first rest.
  rewrite align_whisper_with_diarization_flat_map.
  induction whisper_chunks as [|chunk chunks IH]; [constructor|].
  cbn [flat_map]. apply Forall_app. split; [|exact IH].
  rewrite aligned_of_assigned.
  destruct (Qle_bool (ts1 chunk - ts0 chunk) 0); constructor; [|constructor].
  apply assigned_speaker_known.
Qed.

(** ** Redundancy remover: provenance and idempotence *)

Lemma fix_drift_trimmed (prev current : Aligned) :
  trimmed_from current (fix_drift prev current).
Proof.
  unfold trimmed_from, fix_drift.
  case_Qltb (r_start current) (r_end prev) Hs;
    [|repeat split; apply Qle_refl].
  destruct (Qltb (overlap_duration prev current) 1.0); simpl;
    repeat split; lra.
Qed.

Lemma clean_from_trimmed (input : list Aligned) (rest : list Aligned) :
  forall prev,
    (exists s0, In s0 input /\ trimmed_from s0 prev) ->
    incl rest input ->
    Forall (fun s => exists s0, In s0 input /\ trimmed_from s0 s)
      (clean_from prev rest).
Proof.
  induction rest as [|current rest IH]; intros prev Hprev Hrest; simpl.
  - repeat constructor. exact Hprev.
  - assert (Hin : In current input) by (apply Hrest; left; reflexivity).
    assert (Hrest' : incl rest input)
      by (intros x Hx; apply Hrest; right; exact Hx).
    destruct (is_contained_duplicate prev current); [apply IH; assumption|].
    destruct (Qltb _ _); [|apply IH; assumption].
    constructor; [exact Hprev|]. apply IH; [|assumption].
    exists current. split; [exact Hin | apply fix_drift_trimmed].
Qed.

(** X8: every segment the redundancy remover returns is one of the input
    segments with the same end, speaker and text, and a start that is the
    same or later; the remover invents no segment and moves no end. *)
Theorem remover_only_trims :
  forall segments : list Aligned,
    Forall (fun s => exists s0, In s0 segments /\ trimmed_from s0 s)
      (_remove_redundant_segments segments).
Proof.
  intros [|first rest]; [constructor|].
  rewrite remove_redundant_segments_cons. apply clean_from_trimmed.
  - exists first. split; [left; reflexivity|].
    repeat split. apply Qle_refl.
  - intros x Hx. right. exact Hx.
Qed.

Lemma py_max_zero_nonpos (x : Q) : x <= 0 -> py_max 0 x = 0.
Proof.
  intro H. unfold py_max. case_Qltb 0 x Hx; [lra | reflexivity].
Qed.

Lemma py_min_cases (a b : Q) :
  (b < a /\ py_min a b = b) \/ (a <= b /\ py_min a b = a).
Proof.
  unfold py_min. case_Qltb b a H; auto.
Qed.

(** After the clamp nothing of the segment lies in [prev] any more. *)
Lemma clamped_not_duplicate (prev current : Aligned) :
  is_contained_duplicate prev (set_start current (r_end prev)) = false.
Proof.
  unfold is_contained_duplicate, overlap_duration. simpl.
  rewrite py_max_zero_nonpos.
  - assert (Hz : Qltb 0.8 (0 / (r_end current - r_end prev)) = false).
    { apply Qltb_ge. unfold Qdiv. rewrite Qmult_0_l. lra. }
    rewrite Hz, andb_false_r. reflexivity.
  - destruct (py_min_cases (r_end prev) (r_end current)) as [[? ->]|[? ->]];
      destruct (py_max_cases (r_start prev) (r_end prev))
        as [[? ->]|[? ->]]; lra.
Qed.

(** A segment that was accepted is accepted again as it is. *)
Lemma fix_drift_accepted (prev current : Aligned) :
  is_contained_duplicate prev current = false ->
  0.1 < r_end (fix_drift prev current) - r_start (fix_drift prev current) ->
  accepted_after prev (fix_drift prev current).
Proof.
  intros Hdup Hlong. unfold accepted_after.
  split; [|split; [|exact Hlong]]; clear Hlong; unfold fix_drift.
  - destruct (Qltb (r_start current) (r_end prev)); [|exact Hdup].
    destruct (Qltb (overlap_duration prev current) 1.0); [|exact Hdup].
    apply clamped_not_duplicate.
  - case_Qltb (r_start current) (r_end prev) Hs.
    + case_Qltb (overlap_duration prev current) 1.0 Ho.
      * simpl.
        rewrite (proj2 (Qltb_ge (r_end prev) (r_end prev)) (Qle_refl _)).
        reflexivity.
      * rewrite (proj2 (Qltb_lt _ _) Hs), (proj2 (Qltb_ge _ _) Ho).
        reflexivity.
    + rewrite (proj2 (Qltb_ge _ _) Hs). reflexivity.
Qed.

Lemma clean_from_accepted (rest : list Aligned) :
  forall prev, chain accepted_after (clean_from prev rest).
Proof.
  induction rest as [|current rest IH]; intros prev; simpl.
  - constructor.
  - destruct (is_contained_duplicate prev current) eqn:Hdup; [apply IH|].
    case_Qltb 0.1 (r_end (fix_drift prev current)
                   - r_start (fix_drift prev current)) Hlong; [|apply IH].
    specialize (IH (fix_drift prev current)).
    destruct (clean_from_head rest (fix_drift prev current)) as [tail E].
    rewrite E in *. constructor; [|exact IH].
    apply fix_drift_accepted; assumption.
Qed.

Lemma clean_from_fixed (rest : list Aligned) :
  forall prev,
    chain accepted_after (prev :: rest) -> clean_from prev rest = prev :: rest.
Proof.
  induction rest as [|current rest IH]; intros prev H; simpl.
  - reflexivity.
  - inversion H as [| |? ? ? (Hdup & Hfix & Hlong) Hrest]; subst.
    rewrite Hdup, Hfix.
    rewrite (proj2 (Qltb_lt _ _) Hlong).
    f_equal. apply IH. exact Hrest.
Qed.

(** X9: the redundancy remover applied to its own output returns it
    unchanged: nothing more is dropped and no start is moved again. *)
Theorem remover_idempotent :
  forall segments : list Aligned,
    _remove_redundant_segments (_remove_redundant_segments segments)
    = _remove_redundant_segments segments.
Proof.
  intros [|first rest]; [reflexivity|].
  rewrite remove_redundant_segments_cons.
  pose proof (clean_from_accepted rest first) as H.
  destruct (clean_from_head rest first) as [tail E]. rewrite E in *.
  rewrite remove_redundant_segments_cons. apply clean_from_fixed. exact H.
Qed.

(** ** Turn merger: the text is kept *)

Lemma string_append_assoc (a b c : string) :
  ((a ++ b) ++ c)%string = (a ++ (b ++ c))%string.
Proof.
  induction a as [|x a IH]; simpl; [reflexivity|]. rewrite IH. reflexivity.
Qed.

Lemma join_absorbed (a b : string) (texts : list string) :
  join " " ((a ++ " " ++ b)%string :: texts) = join " " (a :: b :: texts).
Proof.
  unfold join. destruct texts as [|c texts]; simpl.
  - reflexivity.
  - rewrite !string_append_assoc. reflexivity.
Qed.

Lemma turns_from_text (rest : list Aligned) :
  forall current,
    join " " (map r_text (turns_from current rest))
    = join " " (map r_text (current :: rest)).
Proof.
  induction rest as [|next_seg rest IH]; intros current; simpl.
  - reflexivity.
  - destruct (folds current next_seg).
    + rewrite IH. simpl map.
      apply (join_absorbed (r_text current) (r_text next_seg)).
    + simpl map. specialize (IH next_seg). simpl map in IH.
      unfold join in *. simpl. simpl in IH.
      destruct (map r_text (turns_from next_seg rest)) as [|t ts] eqn:E.
      * destruct (turns_from_head rest next_seg) as (x & xs & E' & _).
        rewrite E' in E. discriminate.
      * rewrite IH. reflexivity.
Qed.

(** X10: the turn merger keeps the text: the texts of the turns, joined by
    single spaces, read the same as the texts of the segments joined by
    single spaces; no word is lost, repeated or moved. *)
Theorem turn_merger_keeps_text :
  forall results : list Aligned,
    join " " (map r_text (_merge_consecutive_speakers results))
    = join " " (map r_text results).
Proof.
  intros [|first rest]; [reflexivity|].
  rewrite merge_consecutive_speakers_cons. apply turns_from_text.
Qed.

(** ** The assembled transcript: durations and speakers *)

Lemma turns_from_positive (rest : list Aligned) :
  forall current,
    0 < duration current ->
    Forall (fun s => 0 < duration s) rest ->
    Forall (fun s => 0 < duration s) (turns_from current rest).
Proof.
  induction rest as [|next_seg rest IH]; intros current Hc Hrest; simpl.
  - repeat constructor. exact Hc.
  - apply Forall_cons_iff in Hrest. destruct Hrest as [Hn Hrest].
    destruct (folds current next_seg) eqn:F.
    + apply IH; [|exact Hrest].
      destruct (absorb_weight current next_seg F) as [_ Hw]; try lra.
      unfold duration, absorb in *. simpl.
      destruct (py_max_cases (r_end current) (r_end next_seg))
        as [[? ->]|[? ->]]; lra.
    + constructor; [exact Hc|]. apply IH; assumption.
Qed.

(** X11: every segment of the assembled transcript has a positive
    duration: [start < end]. *)
Theorem transcript_segments_positive :
  forall (get_overlap : list Track -> list Segment)
         (speaker_label_of : string -> string)
         (all_chunks : list Chunk) (raw_annotation : list Track),
    Forall (fun o => f_start o < f_end o)
      (process_with_speakers get_overlap speaker_label_of
         all_chunks raw_annotation).
Proof.
  intros get_overlap speaker_label_of all_chunks raw_annotation.
  unfold process_with_speakers. cbv zeta.
  rewrite align_whisper_with_diarization_flat_map.
  set (segs := map to_speaker_segment _).
  set (A := flat_map (aligned_of segs) _).
  assert (HS : Forall (fun s => 0 < duration s) (sorted_by r_start A))
    by apply sorted_by_Forall, align_positive.
  apply remove_redundant_segments_weight in HS. destruct HS as [_ HR].
  set (R := _remove_redundant_segments (sorted_by r_start A)) in *.
  apply Forall_map.
  assert (HT : Forall (fun s => 0 < duration s)
                 (_merge_consecutive_speakers R)).
  { destruct R as [|first rest]; [constructor|].
    rewrite merge_consecutive_speakers_cons.
    apply Forall_cons_iff in HR. destruct HR as [Hf Hr].
    apply turns_from_positive; assumption. }
  eapply Forall_impl; [|exact HT].
  intros s Hs. unfold duration in Hs. simpl. lra.
Qed.

Lemma clean_from_speakers (P : string -> Prop) (rest : list Aligned) :
  forall prev,
    P (r_speaker prev) ->
    Forall (fun s => P (r_speaker s)) rest ->
    Forall (fun s => P (r_speaker s)) (clean_from prev rest).
Proof.
  induction rest as [|current rest IH]; intros prev Hprev Hrest; simpl.
  - repeat constructor. exact Hprev.
  - apply Forall_cons_iff in Hrest. destruct Hrest as [Hcur Hrest].
    destruct (is_contained_duplicate prev current); [apply IH; assumption|].
    destruct (Qltb _ _); [|apply IH; assumption].
    constructor; [exact Hprev|].
    apply IH; [rewrite fix_drift_speaker; exact Hcur | assumption].
Qed.

Lemma turns_from_speakers (P : string -> Prop) (rest : list Aligned) :
  forall current,
    P (r_speaker current) ->
    Forall (fun s => P (r_speaker s)) rest ->
    Forall (fun s => P (r_speaker s)) (turns_from current rest).
Proof.
  induction rest as [|next_seg rest IH]; intros current Hc Hrest; simpl.
  - repeat constructor. exact Hc.
  - apply Forall_cons_iff in Hrest. destruct Hrest as [Hnext Hrest].
    destruct (folds current next_seg).
    + apply IH; [exact Hc | assumption].
    + constructor; [exact Hc|]. apply IH; assumption.
Qed.

Lemma annotation_insert_labels (segment : Segment) (label : string)
    (a : Annotation) :
  forall t,
    In t (annotation_insert segment label a) ->
    snd t = label \/ In (snd t) (map snd a).
Proof.
  induction a as [|[s l] a IH]; intros t; simpl.
  - intros [<-|[]]. left. reflexivity.
  - destruct (segment_eqb segment s).
    + intros [<-|H]; [left; reflexivity|].
      right. right. apply in_map. exact H.
    + destruct (segment_ltb segment s).
      * intros [<-|[<-|H]]; [left; reflexivity | right; left; reflexivity|].
        right. right. apply in_map. exact H.
      * intros [<-|H]; [right; left; reflexivity|].
        destruct (IH t H) as [E|Hin]; [left; exact E | right; right; exact Hin].
Qed.

Lemma annotation_of_labels (tracks : list Track) :
  forall a t,
    In t (annotation_of tracks a) ->
    In (snd t) (map snd tracks) \/ In (snd t) (map snd a).
Proof.
  induction tracks as [|[s l] tracks IH]; intros a t H; simpl in *.
  - right. apply in_map. exact H.
  - apply IH in H. destruct H as [H|H]; [left; right; exact H|].
    unfold setitem in H. destruct (segment_nonempty s); [|right; exact H].
    apply in_map_iff in H. destruct H as (u & <- & Hu).
    apply annotation_insert_labels in Hu.
    destruct Hu as [->|Hu]; [left; left; reflexivity | right; exact Hu].
Qed.

Lemma post_process_diarization_labels (diarization : list Track) :
  forall t,
    In t (_post_process_diarization diarization) ->
    In (track_label t) (map track_label diarization).
Proof.
  intros t H. rewrite post_process_diarization_spec in H.
  unfold itertracks in H. apply annotation_of_labels in H.
  destruct H as [H|[]].
  apply in_map_iff in H. destruct H as (u & E & Hu).
  pose proof (spec_smooth_from diarization) as Hfrom.
  rewrite Forall_forall in Hfrom.
  destruct (Hfrom u Hu) as (first & _ & Hfirst & _ & Hl & _).
  unfold track_label in *. rewrite <- E, <- Hl. apply in_map. exact Hfirst.
Qed.

Lemma align_speakers_from (segs : list SpeakerSegment)
    (whisper_chunks : list Chunk) :
  Forall (fun s => r_speaker s = "SPEAKER_00"
                   \/ In (r_speaker s) (map spk_speaker segs))
    (flat_map (aligned_of segs) whisper_chunks).
Proof.
  destruct segs as [|first rest].
  - eapply Forall_impl; [|apply align_no_speakers].
    intros s Hs. left. exact Hs.
  - induction whisper_chunks as [|chunk chunks IH]; [constructor|].
    cbn [flat_map]. apply Forall_app. split; [|exact IH].
    rewrite aligned_of_assigned.
    destruct (Qle_bool (ts1 chunk - ts0 chunk) 0);
      constructor; [|constructor].
    right. apply assigned_speaker_known.
Qed.

(** X12: every segment of the assembled transcript carries the label of a
    track of the diarization, or the default ["SPEAKER_00"]: the pipeline
    invents no other speaker. *)
Theorem transcript_speakers_known :
  forall (get_overlap : list Track -> list Segment)
         (speaker_label_of : string -> string)
         (all_chunks : list Chunk) (raw_annotation : list Track),
    Forall (fun o => f_speaker_id o = "SPEAKER_00"
                     \/ In (f_speaker_id o) (map track_label raw_annotation))
      (process_with_speakers get_overlap speaker_label_of
         all_chunks raw_annotation).
Proof.
  intros get_overlap speaker_label_of all_chunks raw_annotation.
  unfold process_with_speakers. cbv zeta.
  rewrite align_whisper_with_diarization_flat_map.
  set (P := fun speaker : string =>
              speaker = "SPEAKER_00"
              \/ In speaker (map track_label raw_annotation)).
  set (clean := _post_process_diarization raw_annotation).
  set (segs := map to_speaker_segment (itertracks clean)).
  set (M := _merge_overlapping_chunks all_chunks).
  assert (HA : Forall (fun s => P (r_speaker s))
                 (flat_map (aligned_of segs) M)).
  { eapply Forall_impl; [|apply align_speakers_from].
    intros s [Hs|Hs]; [left; exact Hs | right].
    unfold segs in Hs. rewrite map_map in Hs.
    apply in_map_iff in Hs. destruct Hs as (t & <- & Ht).
    apply post_process_diarization_labels. exact Ht. }
  apply (sorted_by_Forall r_start) in HA.
  apply Forall_map. simpl.
  destruct (sorted_by r_start (flat_map (aligned_of segs) M))
    as [|first rest]; [constructor|].
  rewrite remove_redundant_segments_cons.
  apply Forall_cons_iff in HA. destruct HA as [Hfirst Hrest].
  pose proof (clean_from_speakers P rest first Hfirst Hrest) as HR.
  destruct (clean_from_head rest first) as [tail E]. rewrite E in *.
  rewrite merge_consecutive_speakers_cons.
  apply Forall_cons_iff in HR. destruct HR as [_ Htail].
  apply (turns_from_speakers P); assumption.
Qed.

(** ** Diarization smoother: the annotation it returns *)

Lemma segment_ltb_lt (a b : Segment) :
  segment_ltb a b = true <->
  seg_start a < seg_start b
  \/ (seg_start a == seg_start b /\ seg_end a < seg_end b).
Proof.
  unfold segment_ltb. rewrite orb_true_iff, andb_true_iff, !Qltb_lt.
  rewrite Qeq_bool_iff. tauto.
Qed.

Lemma segment_eqb_eq (a b : Segment) :
  segment_eqb a b = true <->
  seg_start a == seg_start b /\ seg_end a == seg_end b.
Proof.
  unfold segment_eqb. rewrite andb_true_iff, !Qeq_bool_iff. tauto.
Qed.

Lemma annotation_insert_head (segment : Segment) (label : string)
    (a : Annotation) (u : Track) :
  Forall (segment_before u) a ->
  segment_before u (segment, label) ->
  Forall (segment_before u) (annotation_insert segment label a).
Proof.
  intros Ha Hu. induction Ha as [|[s l] a Hs Ha IH]; simpl.
  - repeat constructor. exact Hu.
  - destruct (segment_eqb segment s); [constructor; assumption|].
    destruct (segment_ltb segment s);
      [constructor; [exact Hu | constructor; assumption]|].
    constructor; assumption.
Qed.

Lemma annotation_insert_sorted (segment : Segment) (label : string)
    (a : Annotation) :
  StronglySorted segment_before a ->
  StronglySorted segment_before (annotation_insert segment label a).
Proof.
  induction 1 as [|[s l] a Ha IH Hs]; simpl.
  - repeat constructor.
  - destruct (segment_eqb segment s) eqn:E.
    + constructor; [exact Ha | exact Hs].
    + destruct (segment_ltb segment s) eqn:L.
      * constructor; [constructor; assumption|].
        constructor; [exact L|].
        eapply Forall_impl; [|exact Hs]. unfold segment_before. simpl.
        intros t Ht. apply segment_ltb_lt in L. apply segment_ltb_lt in Ht.
        apply segment_ltb_lt. clear -L Ht.
        destruct L as [L|[L1 L2]]; destruct Ht as [Ht|[H1 H2]];
          [left | left | left | right; split]; lra.
      * constructor; [exact IH|].
        apply annotation_insert_head; [exact Hs|].
        unfold segment_before. simpl. apply segment_ltb_lt.
        assert (E' : ~ (seg_start segment == seg_start s
                        /\ seg_end segment == seg_end s)).
        { intro H. apply segment_eqb_eq in H. congruence. }
        assert (L' : ~ (seg_start segment < seg_start s
                        \/ (seg_start segment == seg_start s
                            /\ seg_end segment < seg_end s))).
        { intro H. apply segment_ltb_lt in H. congruence. }
        clear -E' L'.
        destruct (Q_dec (seg_start s) (seg_start segment)) as [[H|H]|H].
        -- left. exact H.
        -- exfalso. apply L'. left. exact H.
        -- right. split; [exact H|].
           destruct (Q_dec (seg_end s) (seg_end segment)) as [[H'|H']|H'].
           ++ exact H'.
           ++ exfalso. apply L'. right. split; [symmetry; exact H | exact H'].
           ++ exfalso. apply E'. split; symmetry; assumption.
Qed.

Lemma annotation_insert_nonempty (segment : Segment) (label : string)
    (a : Annotation) :
  nonempty_track (segment, label) ->
  Forall nonempty_track a ->
  Forall nonempty_track (annotation_insert segment label a).
Proof.
  intros Hs Ha. induction Ha as [|[s l] a Hsl Ha IH]; simpl.
  - repeat constructor. exact Hs.
  - destruct (segment_eqb segment s); [constructor; assumption|].
    destruct (segment_ltb segment s);
      [constructor; [exact Hs | constructor; assumption]|].
    constructor; assumption.
Qed.

Lemma annotation_insert_length (segment : Segment) (label : string)
    (a : Annotation) :
  (List.length (annotation_insert segment label a) <= S (List.length a))%nat.
Proof.
  induction a as [|[s l] a IH]; simpl; [lia|].
  destruct (segment_eqb segment s); [simpl; lia|].
  destruct (segment_ltb segment s); simpl; lia.
Qed.

Lemma annotation_of_invariant (tracks : list Track) :
  forall a,
    StronglySorted segment_before a -> Forall nonempty_track a ->
    StronglySorted segment_before (annotation_of tracks a)
    /\ Forall nonempty_track (annotation_of tracks a)
    /\ (List.length (annotation_of tracks a)
        <= List.length a + List.length tracks)%nat.
Proof.
  induction tracks as [|[s l] tracks IH]; intros a Hs Hn; simpl.
  - repeat split; [assumption | assumption | lia].
  - unfold setitem. destruct (segment_nonempty s) eqn:E.
    + destruct (IH (annotation_insert s l a)) as (H1 & H2 & H3).
      * apply annotation_insert_sorted. exact Hs.
      * apply annotation_insert_nonempty; assumption.
      * repeat split; [assumption | assumption|].
        pose proof (annotation_insert_length s l a). lia.
    + destruct (IH a Hs Hn) as (H1 & H2 & H3).
      repeat split; [assumption | assumption | lia].
Qed.

Lemma spec_merge_adjacent_length (rest : list Track) :
  forall current,
    (List.length (spec_merge_adjacent current rest)
     <= S (List.length rest))%nat.
Proof.
  induction rest as [|next rest IH]; intros current; simpl; [lia|].
  destruct (merges current next).
  - specialize (IH (mkSegment (track_start current) (track_end next),
                    track_label current)). lia.
  - simpl. specialize (IH next). lia.
Qed.

(** X13: the smoother returns an annotation whose tracks are in the strict
    order of their segments (by start, then by end), each with a segment
    longer than a microsecond and the label of an input track; it never
    returns more tracks than it was given. *)
Theorem smoother_returns_ordered_tracks :
  forall intervals : list Track,
    let output := _post_process_diarization intervals in
    StronglySorted segment_before output
    /\ Forall nonempty_track output
    /\ Forall (fun t => In (track_label t) (map track_label intervals))
         output
    /\ (List.length output <= List.length intervals)%nat.
Proof.
  intros intervals output.
  split; [|split; [|split]].
  - unfold output. rewrite post_process_diarization_spec.
    apply annotation_of_invariant; constructor.
  - unfold output. rewrite post_process_diarization_spec.
    apply annotation_of_invariant; constructor.
  - apply Forall_forall. apply post_process_diarization_labels.
  - unfold output. rewrite post_process_diarization_spec.
    destruct (annotation_of_invariant (spec_smooth intervals) [])
      as (_ & _ & H); [constructor | constructor|].
    unfold itertracks. simpl List.length in H.
    assert (Hs : (List.length (spec_smooth intervals)
                  <= List.length intervals)%nat).
    { unfold spec_smooth.
      rewrite <- (sorted_by_length track_start intervals).
      destruct (sorted_by track_start intervals) as [|f r];
        [simpl; lia | apply spec_merge_adjacent_length]. }
    lia.
Qed.

(** ** Chunked transcription: the windows *)

Section ChunkedFacts.

Variable sample_rate : Z.
Variable decode : Z -> Z -> string.
Hypothesis sample_rate_positive : (0 < sample_rate)%Z.

Let step : Z := chunk_samples sample_rate - stride_samples sample_rate.

Lemma step_value : step = (16 * sample_rate)%Z.
Proof.
  unfold step, chunk_samples, stride_samples, chunk_length_s, stride_length_s.
  lia.
Qed.

Lemma transcribe_loop_windows (fuel : nat) :
  forall len offset all_chunks,
    transcribe_loop sample_rate decode fuel len offset all_chunks
    = all_chunks
      ++ flat_map (fun w => window_chunks sample_rate decode (fst w) (snd w))
           (windows_from sample_rate fuel len offset).
Proof.
  induction fuel as [|fuel IH]; intros len offset all_chunks; simpl.
  - symmetry. apply app_nil_r.
  - destruct (offset <? len)%Z; [|symmetry; apply app_nil_r].
    destruct (_ <? sample_rate)%Z; [symmetry; apply app_nil_r|].
    rewrite IH. simpl. rewrite app_assoc. reflexivity.
Qed.

(** With enough iterations allowed, more change nothing: the loop has
    ended. *)
Lemma windows_from_enough (fuel : nat) :
  forall len offset extra,
    (len - offset < Z.of_nat fuel * step)%Z ->
    windows_from sample_rate (fuel + extra) len offset
    = windows_from sample_rate fuel len offset.
Proof.
  pose proof step_value as Hstep.
  induction fuel as [|fuel IH]; intros len offset extra Hfuel.
  - simpl in Hfuel. destruct extra as [|extra]; [reflexivity|]. simpl.
    destruct (offset <? len)%Z eqn:E; [|reflexivity].
    apply Z.ltb_lt in E. lia.
  - simpl. destruct (offset <? len)%Z; [|reflexivity].
    destruct (_ <? sample_rate)%Z; [reflexivity|].
    f_equal. apply IH. fold step.
    rewrite Nat2Z.inj_succ, Z.mul_succ_l in Hfuel. lia.
Qed.

Lemma iterations_enough (len : Z) :
  (0 <= len)%Z ->
  (len - 0 < Z.of_nat (iterations sample_rate len) * step)%Z.
Proof.
  intro Hlen. pose proof step_value as Hstep.
  unfold iterations. fold step.
  assert (Hpos : (0 < step)%Z) by lia.
  rewrite Nat2Z.inj_succ, Z2Nat.id by (apply Z.div_pos; lia).
  pose proof (Z.mul_succ_div_gt len step Hpos). lia.
Qed.

Lemma windows_from_shape (fuel : nat) :
  forall len offset,
    (0 <= offset)%Z ->
    Forall (fun w => (0 <= fst w /\ sample_rate <= snd w - fst w
                      /\ snd w - fst w <= 20 * sample_rate
                      /\ snd w <= len)%Z)
      (windows_from sample_rate fuel len offset)
    /\ chain (window_step sample_rate)
         (windows_from sample_rate fuel len offset)
    /\ (forall w tail,
           windows_from sample_rate fuel len offset = w :: tail ->
           fst w = offset).
Proof.
  induction fuel as [|fuel IH]; intros len offset Hoff; cbn [windows_from].
  - repeat split; [constructor | constructor | discriminate].
  - destruct (offset <? len)%Z eqn:E;
      [|repeat split; [constructor | constructor | discriminate]].
    destruct (Z.min (offset + chunk_samples sample_rate) len - offset
              <? sample_rate)%Z eqn:E2;
      [repeat split; [constructor | constructor | discriminate]|].
    apply Z.ltb_lt in E. apply Z.ltb_ge in E2.
    pose proof step_value as Hstep. unfold step in Hstep.
    assert (Hc : chunk_samples sample_rate = (20 * sample_rate)%Z)
      by (unfold chunk_samples, chunk_length_s; lia).
    destruct (IH len (offset + (chunk_samples sample_rate
                                - stride_samples sample_rate))%Z)
      as (Hall & Hchain & Hhead); [lia|].
    repeat split.
    + constructor; [cbn [fst snd]; lia | exact Hall].
    + destruct (windows_from sample_rate fuel len _) as [|w tail] eqn:Ew;
        [constructor|].
      constructor; [|exact Hchain].
      specialize (Hhead w tail eq_refl).
      apply Forall_cons_iff in Hall. destruct Hall as [Hw _].
      unfold window_step. cbn [fst snd]. lia.
    + intros w tail [= <- _]. reflexivity.
Qed.

Lemma windows_from_cover (fuel : nat) :
  forall len offset i,
    (len - offset < Z.of_nat fuel * step)%Z ->
    (sample_rate <= len - offset)%Z ->
    (offset <= i < len)%Z ->
    exists w,
      In w (windows_from sample_rate fuel len offset)
      /\ (fst w <= i < snd w)%Z.
Proof.
  pose proof step_value as Hstep.
  induction fuel as [|fuel IH]; intros len offset i Hfuel Hlen Hi.
  - simpl in Hfuel. lia.
  - cbn [windows_from].
    assert (E : (offset <? len)%Z = true) by (apply Z.ltb_lt; lia).
    assert (Hc : chunk_samples sample_rate = (20 * sample_rate)%Z)
      by (unfold chunk_samples, chunk_length_s; lia).
    assert (E2 : (Z.min (offset + chunk_samples sample_rate) len - offset
                  <? sample_rate)%Z = false) by (apply Z.ltb_ge; lia).
    rewrite E, E2.
    destruct (Z_lt_le_dec i (Z.min (offset + chunk_samples sample_rate) len))
      as [Hin|Hout].
    + eexists. split; [left; reflexivity|]. cbn [fst snd]. lia.
    + destruct (IH len (offset + step)%Z i) as (w & Hw & Hiw).
      * rewrite Nat2Z.inj_succ, Z.mul_succ_l in Hfuel. lia.
      * lia.
      * lia.
      * exists w. split; [right; exact Hw | exact Hiw].
Qed.

End ChunkedFacts.

(** X14: an audio shorter than one second is not transcribed at all; for
    a longer one every sample lies in a window that is decoded: the loop
    skips no audio. *)
Theorem windows_cover_audio :
  forall sample_rate len : Z,
    (0 < sample_rate)%Z ->
    ((len < sample_rate)%Z -> windows sample_rate len = [])
    /\ ((sample_rate <= len)%Z ->
        forall i, (0 <= i < len)%Z ->
        exists w, In w (windows sample_rate len) /\ (fst w <= i < snd w)%Z).
Proof.
  intros sample_rate len Hsr. split.
  - intro Hshort. unfold windows, iterations. cbn [windows_from].
    destruct (0 <? len)%Z eqn:E; [|reflexivity].
    assert (E2 : (Z.min (0 + chunk_samples sample_rate) len - 0
                  <? sample_rate)%Z = true) by (apply Z.ltb_lt; lia).
    rewrite E2. reflexivity.
  - intros Hlong i Hi. unfold windows.
    apply windows_from_cover; [exact Hsr | | lia | lia].
    apply iterations_enough; lia.
Qed.

Lemma windows_cover_audio_witness :
  (700000 < 16000 -> windows 16000 700000 = [])%Z
  /\ ((16000 <= 700000)%Z ->
      forall i, (0 <= i < 700000)%Z ->
      exists w, In w (windows 16000 700000) /\ (fst w <= i < snd w)%Z).
Proof.
  apply (windows_cover_audio 16000 700000). reflexivity.
Defined.

(** X15: the loop ends within [len / (16 * sample_rate) + 1] iterations.
    Every window starts at a multiple step of sixteen seconds, lies inside
    the audio and is between one and twenty seconds long; two consecutive
    windows share between one and four seconds of audio. *)
Theorem windows_shape :
  forall sample_rate len : Z,
    (0 < sample_rate)%Z -> (0 <= len)%Z ->
    (forall extra,
        windows_from sample_rate (iterations sample_rate len + extra) len 0
        = windows sample_rate len)
    /\ Forall (fun w => (0 <= fst w /\ sample_rate <= snd w - fst w
                         /\ snd w - fst w <= 20 * sample_rate
                         /\ snd w <= len)%Z)
         (windows sample_rate len)
    /\ chain (window_step sample_rate) (windows sample_rate len).
Proof.
  intros sample_rate len Hsr Hlen. split; [|split].
  - intro extra. unfold windows.
    apply windows_from_enough.
    apply iterations_enough; assumption.
  - apply windows_from_shape; [exact Hsr | lia].
  - apply windows_from_shape; [exact Hsr | lia].
Qed.

Lemma windows_shape_witness :
  (forall extra,
      windows_from 16000 (iterations 16000 700000 + extra) 700000 0
      = windows 16000 700000)
  /\ Forall (fun w => (0 <= fst w /\ 16000 <= snd w - fst w
                       /\ snd w - fst w <= 20 * 16000
                       /\ snd w <= 700000)%Z)
       (windows 16000 700000)
  /\ chain (window_step 16000) (windows 16000 700000).
Proof.
  apply (windows_shape 16000 700000).
  - reflexivity.
  - discriminate.
Defined.

(** ** Chunked transcription: the chunks *)

Lemma digits_value_nonneg (s : string) :
  forall acc, (0 <= acc)%Z -> (0 <= digits_value acc s)%Z.
Proof.
  induction s as [|c s IH]; intros acc Hacc; cbn [digits_value];
    [exact Hacc|].
  apply IH. pose proof (Nat2Z.is_nonneg (nat_of_ascii c - 48)). lia.
Qed.

Lemma float_of_nonneg (s : string) (q : Q) :
  float_of s = Some q -> 0 <= q.
Proof.
  unfold float_of. destruct (take_digits s) as [d1 r].
  destruct r as [|c r']; [discriminate|].
  destruct c as [[] [] [] [] [] [] [] []]; try discriminate.
  destruct (take_digits r') as [d2 r''].
  destruct (is_empty d1 || is_empty d2 || negb (is_empty r''));
    [discriminate|].
  intros [= <-]. unfold Qdiv. apply Qmult_le_0_compat.
  - rewrite <- (Zle_Qle 0). apply digits_value_nonneg. lia.
  - apply Qinv_le_0_compat. rewrite <- (Zle_Qle 0).
    apply Z.pow_nonneg. lia.
Qed.

Lemma timed_chunks_nonneg (parts : list string) :
  Forall (fun c => 0 <= ts0 c) (timed_chunks parts).
Proof.
  induction parts as [| |part_i part_i1 tail IH] using list_pair_ind.
  - constructor.
  - constructor.
  - rewrite timed_chunks_step.
    destruct (float_of part_i) as [start_time|] eqn:F; [|exact IH].
    destruct (match tail with
              | [] => Some (start_time + 2.0)
              | part_i2 :: _ => float_of part_i2
              end) as [end_time|]; [|exact IH].
    destruct (Qle_bool end_time start_time); [exact IH|].
    destruct (is_empty (strip part_i1) || contains (strip part_i1) ".,?!:");
      [exact IH|].
    destruct ((4 <? List.length (split (strip part_i1)))%nat
              && (count_unique (split (strip part_i1)) =? 1)%nat);
      [exact IH|].
    constructor; [|exact IH]. apply (float_of_nonneg _ _ F).
Qed.

Lemma parse_whisper_output_nonneg (block : string) :
  Forall (fun c => 0 <= ts0 c) (chunks (_parse_whisper_output block)).
Proof.
  unfold _parse_whisper_output.
  destruct (is_repetition_loop block); [constructor|].
  pose proof (timed_chunks_nonneg (tl (re_split_timestamps block))) as Hw.
  destruct (timed_chunks (tl (re_split_timestamps block))) as [|c cs].
  - simpl. unfold fallback_chunks.
    destruct (negb (is_empty (clean_text block))
              && (String.length (clean_text block) <? 200)%nat);
      repeat constructor. discriminate.
  - exact Hw.
Qed.

Lemma window_chunks_placed (sample_rate : Z) (decode : Z -> Z -> string)
    (offset end_ : Z) :
  Forall (fun c => inject_Z offset / inject_Z sample_rate <= ts0 c
                   /\ ts0 c < ts1 c /\ text c <> "")
    (window_chunks sample_rate decode offset end_).
Proof.
  unfold window_chunks. apply Forall_map.
  pose proof (parse_whisper_output_well_timed (decode offset end_)) as Hw.
  pose proof (parse_whisper_output_nonneg (decode offset end_)) as Hn.
  induction Hw as [|c cs [Hlt Htext] Hw IH]; [constructor|].
  apply Forall_cons_iff in Hn. destruct Hn as [Hc Hn].
  constructor; [|apply IH; exact Hn].
  unfold adjust, ts0, ts1 in *. simpl. repeat split; [lra | lra | exact Htext].
Qed.

Lemma flat_map_window_chunks_placed (sample_rate : Z)
    (decode : Z -> Z -> string) (ws : list (Z * Z)) :
  Forall (fun c =>
            exists w,
              In w ws
              /\ inject_Z (fst w) / inject_Z sample_rate <= ts0 c
              /\ ts0 c < ts1 c /\ text c <> "")
    (flat_map (fun w => window_chunks sample_rate decode (fst w) (snd w)) ws).
Proof.
  induction ws as [|w ws IH]; [constructor|].
  cbn [flat_map]. apply Forall_app. split.
  - eapply Forall_impl;
      [|apply (window_chunks_placed sample_rate decode (fst w) (snd w))].
    intros c Hc. exists w. split; [left; reflexivity | exact Hc].
  - eapply Forall_impl; [|exact IH].
    intros c (w' & Hw' & Hc). exists w'. split; [right; exact Hw' | exact Hc].
Qed.

Lemma window_chunks_from (sample_rate : Z) (decode : Z -> Z -> string)
    (offset end_ : Z) (c : Chunk) :
  In c (window_chunks sample_rate decode offset end_) <->
  exists sub,
    In sub (chunks (_parse_whisper_output (decode offset end_)))
    /\ c = mkChunk (inject_Z offset / inject_Z sample_rate + ts0 sub,
                    inject_Z offset / inject_Z sample_rate + ts1 sub)
             (text sub).
Proof.
  unfold window_chunks. rewrite in_map_iff. unfold adjust.
  split; intros (sub & H1 & H2); exists sub; auto.
Qed.

(** X16: the loop collects exactly the chunks parsed from the decoded
    windows, each moved by the start time [offset / sample_rate] of its
    window: every collected chunk is a parsed chunk of some window with
    that window's start time added to its start and to its end and with
    the same text, so it starts at or after the start of its window, ends
    after it starts and has a non-empty text; and every parsed chunk of
    every window is collected in this form. *)
Theorem collected_chunks_placed :
  forall (sample_rate : Z) (decode : Z -> Z -> string) (len : Z),
    let collected :=
      transcribe_loop sample_rate decode (iterations sample_rate len)
        len 0 [] in
    Forall (fun c =>
              exists w sub,
                In w (windows sample_rate len)
                /\ In sub (chunks (_parse_whisper_output
                                     (decode (fst w) (snd w))))
                /\ ts0 c = inject_Z (fst w) / inject_Z sample_rate + ts0 sub
                /\ ts1 c = inject_Z (fst w) / inject_Z sample_rate + ts1 sub
                /\ text c = text sub
                /\ inject_Z (fst w) / inject_Z sample_rate <= ts0 c
                /\ ts0 c < ts1 c /\ text c <> "")
      collected
    /\ (forall w sub,
           In w (windows sample_rate len) ->
           In sub (chunks (_parse_whisper_output (decode (fst w) (snd w)))) ->
           In (mkChunk
                 (inject_Z (fst w) / inject_Z sample_rate + ts0 sub,
                  inject_Z (fst w) / inject_Z sample_rate + ts1 sub)
                 (text sub))
             collected).
Proof.
  intros sample_rate decode len collected. unfold collected.
  rewrite transcribe_loop_windows, app_nil_l. fold (windows sample_rate len).
  split.
  - apply Forall_forall. intros c Hc.
    pose proof (flat_map_window_chunks_placed sample_rate decode
                  (windows sample_rate len)) as Hplaced.
    rewrite Forall_forall in Hplaced.
    destruct (Hplaced c Hc) as (_ & _ & _ & Hlt & Htext).
    apply in_flat_map in Hc. destruct Hc as (w & Hw & Hc).
    apply window_chunks_from in Hc. destruct Hc as (sub & Hsub & ->).
    exists w, sub. unfold ts0, ts1 in *. cbn [timestamp text fst snd] in *.
    repeat split; try assumption; try reflexivity.
    pose proof (parse_whisper_output_nonneg (decode (fst w) (snd w))) as Hn.
    rewrite Forall_forall in Hn. specialize (Hn sub Hsub).
    unfold ts0 in Hn. lra.
  - intros w sub Hw Hsub. apply in_flat_map. exists w. split; [exact Hw|].
    apply window_chunks_from. exists sub. auto.
Qed.

(** ** Diarization profiles *)

(** X17: whatever the measured signal-to-noise ratio and speech density,
    the recommended profile is one of the defined profiles, so that with
    ['auto'] the parameters used are those of the recommended profile and
    never the fallback; and the ['aggressive'] profile is recommended
    exactly when the speech density is above 0.7 and the signal-to-noise
    ratio is not above 20 dB. *)
Theorem recommended_profile_defined :
  forall snr speech_ratio : Q,
    diarization_params "auto" snr speech_ratio
    = dict_get diarization_profiles (recommended_profile snr speech_ratio)
    /\ diarization_params "auto" snr speech_ratio <> None
    /\ (recommended_profile snr speech_ratio = "aggressive"
        <-> 0.7 < speech_ratio /\ snr <= 20).
Proof.
  intros snr speech_ratio. unfold diarization_params, recommended_profile.
  cbn [String.eqb Ascii.eqb Bool.eqb].
  case_Qltb 20 snr H1; case_Qltb 0.6 speech_ratio H2;
    case_Qltb 15 snr H3; case_Qltb speech_ratio 0.4 H4;
    case_Qltb 0.7 speech_ratio H5; cbn [andb];
    (split; [reflexivity | split; [discriminate|]]);
    (split; [intro E; try discriminate E; split; lra
            | intros [Ha Hb]; try reflexivity; lra]).
Qed.

(** ** Words: [split] and [join] *)

Lemma string_append_nil_r (s : string) : (s ++ "")%string = s.
Proof.
  induction s as [|c s IH]; simpl; [reflexivity|]. rewrite IH. reflexivity.
Qed.

Lemma no_space_app (a b : string) :
  no_space (a ++ b) = no_space a && no_space b.
Proof.
  induction a as [|c a IH]; simpl; [reflexivity|].
  rewrite IH, andb_assoc. reflexivity.
Qed.

Lemma is_empty_app (a : string) (c : ascii) (b : string) :
  is_empty (a ++ String c b) = false.
Proof.
  destruct a; reflexivity.
Qed.

(** Reading on after a space starts a new word. *)
Lemma split_from_space (s : string) :
  forall word t,
    split_from word (s ++ String " " t)
    = split_from word s ++ split_from "" t.
Proof.
  induction s as [|c s IH]; intros word t.
  - simpl. destruct (String.length word =? 0)%nat; reflexivity.
  - change ((String c s ++ String " " t)%string)
      with (String c (s ++ String " " t)).
    cbn [split_from]. destruct (is_space c).
    + destruct (String.length word =? 0)%nat; rewrite IH; reflexivity.
    + apply IH.
Qed.

Lemma split_from_no_space (s : string) :
  forall word,
    no_space s = true ->
    split_from word s
    = if is_empty (word ++ s) then [] else [(word ++ s)%string].
Proof.
  induction s as [|c s IH]; intros word Hs.
  - simpl. rewrite string_append_nil_r. reflexivity.
  - cbn [no_space] in Hs. apply andb_true_iff in Hs. destruct Hs as [Hc Hs].
    cbn [split_from]. apply negb_true_iff in Hc. rewrite Hc.
    rewrite (IH _ Hs), string_append_assoc. reflexivity.
Qed.

Lemma split_word (w : string) : is_word w -> split w = [w].
Proof.
  intros [Hne Hns]. unfold split. rewrite (split_from_no_space w "" Hns).
  simpl. destruct w; [contradiction | reflexivity].
Qed.

Lemma split_join_words (words : list string) :
  Forall is_word words -> split (join " " words) = words.
Proof.
  induction 1 as [|w words Hw Hwords IH]; [reflexivity|].
  destruct words as [|w2 words].
  - simpl. apply split_word. exact Hw.
  - unfold join in *. unfold split in *.
    change (String.concat " " (w :: w2 :: words))
      with (w ++ String " " (String.concat " " (w2 :: words)))%string.
    rewrite split_from_space, IH.
    change (split_from "" w) with (split w). rewrite (split_word w Hw).
    reflexivity.
Qed.

Lemma split_from_words (s : string) :
  forall word,
    no_space word = true -> Forall is_word (split_from word s).
Proof.
  induction s as [|c s IH]; intros word Hword; cbn [split_from].
  - destruct word; [constructor|]. repeat constructor; [discriminate|].
    exact Hword.
  - destruct (is_space c) eqn:Hc.
    + destruct word; simpl.
      * apply IH. reflexivity.
      * constructor; [split; [discriminate | exact Hword]|].
        apply IH. reflexivity.
    + apply IH. rewrite no_space_app, Hword. simpl. rewrite Hc. reflexivity.
Qed.

Lemma split_words (s : string) : Forall is_word (split s).
Proof.
  apply split_from_words. reflexivity.
Qed.

Lemma Forall_skipn {A : Type} (P : A -> Prop) (l : list A) :
  forall k, Forall P l -> Forall P (skipn k l).
Proof.
  induction l as [|x l IH]; intros [|k] H; simpl; try assumption.
  apply IH. inversion H; assumption.
Qed.

Lemma stitched_words (prev current : Chunk) :
  split (text (stitched prev current))
  = split (text prev)
    ++ skipn (Nat.min 5 (List.length (split (text prev))))
         (split (text current)).
Proof.
  unfold stitched. cbn [text]. unfold split at 1.
  match goal with
  | |- context [(?a ++ " " ++ ?b)%string] =>
      change (a ++ " " ++ b)%string with (a ++ String " " b)%string
  end.
  rewrite split_from_space. f_equal.
  apply split_join_words. apply Forall_skipn. apply split_words.
Qed.

(** X18: when the second of two chunks is stitched onto the first (it
    starts before the first ends, overlaps more than half of it, and the
    last [k = min(5, word_count(prev))] words of the first are the first
    [k] words of the second), the merged chunk reads as the words of the
    first without its last [k], followed by all the words of the second:
    the repeated words appear once and no other word is lost. *)
Theorem stitch_keeps_words_once :
  forall prev cur : Chunk,
    ts0 cur < ts1 prev ->
    0.5 * (ts1 prev - ts0 prev) < ts1 prev - ts0 cur ->
    let prev_words := split (text prev) in
    let cur_words := split (text cur) in
    let k := Nat.min 5 (List.length prev_words) in
    skipn (List.length prev_words - k) prev_words = firstn k cur_words ->
    exists merged,
      _merge_overlapping_chunks [prev; cur] = [merged]
      /\ split (text merged)
         = firstn (List.length prev_words - k) prev_words ++ cur_words.
Proof.
  intros prev cur Hstart Hhalf prev_words cur_words k Hwords.
  exists (stitched prev cur). split.
  - rewrite merge_overlapping_chunks_cons. cbn [merge_from].
    assert (Hs : stitches prev cur = true).
    { unfold stitches, boundary_words_match.
      rewrite !andb_true_iff. repeat split.
      - apply Qltb_lt. exact Hstart.
      - apply Qltb_lt. lra.
      - apply words_eqb_eq. rewrite slice_last_min. exact Hwords. }
    rewrite Hs. reflexivity.
  - rewrite stitched_words. fold prev_words cur_words k.
    rewrite <- (firstn_skipn (List.length prev_words - k) prev_words) at 1.
    rewrite Hwords, <- app_assoc, firstn_skipn. reflexivity.
Qed.

Lemma stitch_keeps_words_once_witness :
  exists merged,
    _merge_overlapping_chunks
      [mkChunk (0, 10) "hello world how are you";
       mkChunk (4, 18) "hello world how are you today friend"]
    = [merged]
    /\ split (text merged)
       = firstn (5 - 5) ["hello"; "world"; "how"; "are"; "you"]
         ++ ["hello"; "world"; "how"; "are"; "you"; "today"; "friend"].
Proof.
  apply (stitch_keeps_words_once
           (mkChunk (0, 10) "hello world how are you")
           (mkChunk (4, 18) "hello world how are you today friend")).
  - reflexivity.
  - reflexivity.
  - reflexivity.
Defined.

(** ** The label shown for a speaker *)

Lemma last_piece_after (sep : ascii) (s : string) :
  forall piece t,
    last_piece sep piece (s ++ String sep t) = last_piece sep "" t.
Proof.
  induction s as [|c s IH]; intros piece t.
  - simpl. rewrite Ascii.eqb_refl. reflexivity.
  - change ((String c s ++ String sep t)%string)
      with (String c (s ++ String sep t)).
    cbn [last_piece]. destruct (Ascii.eqb c sep); apply IH.
Qed.

Lemma digit_is_plain (c : ascii) :
  is_digit c = true ->
  is_int_space c = false /\ Ascii.eqb c "_" = false
  /\ Ascii.eqb c "+" = false /\ Ascii.eqb c "-" = false.
Proof.
  destruct c as [[] [] [] [] [] [] [] []]; intro H;
    try discriminate H; repeat split.
Qed.

Lemma last_piece_digits (s : string) :
  forall piece,
    all_digits s = true -> last_piece "_" piece s = (piece ++ s)%string.
Proof.
  induction s as [|c s IH]; intros piece H.
  - simpl. symmetry. apply string_append_nil_r.
  - cbn [all_digits] in H. apply andb_true_iff in H. destruct H as [Hc Hs].
    cbn [last_piece]. destruct (digit_is_plain c Hc) as (_ & -> & _).
    rewrite (IH _ Hs), string_append_assoc. reflexivity.
Qed.

Lemma digit_at_most_nine (c : ascii) :
  is_digit c = true -> (0 <= Z.of_nat (nat_of_ascii c - 48) <= 9)%Z.
Proof.
  unfold is_digit. generalize (nat_of_ascii c). intros n H.
  apply andb_true_iff in H. destruct H as [H1 H2].
  apply Nat.leb_le in H1, H2. lia.
Qed.

Lemma digits_value_bound (s : string) :
  forall acc : Z,
    all_digits s = true -> (0 <= acc)%Z ->
    (0 <= digits_value acc s
     < (acc + 1) * 10 ^ Z.of_nat (String.length s))%Z.
Proof.
  induction s as [|c s IH]; intros acc H Hacc.
  - cbn [digits_value String.length]. change (Z.of_nat 0) with 0%Z. lia.
  - cbn [all_digits] in H. apply andb_true_iff in H. destruct H as [Hc Hs].
    cbn [digits_value String.length].
    rewrite Nat2Z.inj_succ, Z.pow_succ_r by lia.
    pose proof (digit_at_most_nine c Hc) as Hd.
    assert (Hp : (0 < 10 ^ Z.of_nat (String.length s))%Z)
      by (apply Z.pow_pos_nonneg; lia).
    specialize (IH (10 * acc + Z.of_nat (nat_of_ascii c - 48))%Z Hs).
    revert Hd IH Hp.
    generalize (Z.of_nat (nat_of_ascii c - 48)).
    generalize (10 ^ Z.of_nat (String.length s))%Z.
    intros p d Hd IH Hp.
    destruct IH as [IH1 IH2]; [lia|]. split; [exact IH1|]. nia.
Qed.

Lemma scan_digits_all (s : string) :
  all_digits s = true -> scan_digits false s = Some (s, "").
Proof.
  induction s as [|c s IH]; intro H; [reflexivity|].
  cbn [all_digits] in H. apply andb_true_iff in H. destruct H as [Hc Hs].
  cbn [scan_digits]. rewrite Hc, (IH Hs). reflexivity.
Qed.

(** [int] on a non-empty string of digits. *)
Lemma py_int_digits (int_max_str_digits : Z) (s : string) :
  s <> "" -> all_digits s = true ->
  py_int int_max_str_digits s
  = if over_limit int_max_str_digits (Z.of_nat (String.length s))
    then None else Some (digits_value 0 s).
Proof.
  intros Hne H. destruct s as [|c s]; [contradiction|].
  pose proof H as H'.
  cbn [all_digits] in H'. apply andb_true_iff in H'. destruct H' as [Hc _].
  destruct (digit_is_plain c Hc) as (Hsp & Hu & Hplus & Hminus).
  unfold py_int. cbn [skip_int_space]. rewrite Hsp, Hplus, Hminus.
  cbn [leading_underscore]. rewrite Hu, (scan_digits_all _ H).
  reflexivity.
Qed.

Lemma over_limit_spec (int_max_str_digits digits : Z) :
  over_limit int_max_str_digits digits = true
  <-> (0 < int_max_str_digits /\ Z.max 640 int_max_str_digits < digits)%Z.
Proof.
  unfold over_limit, str_digits_check_threshold.
  rewrite !andb_true_iff, !Z.ltb_lt. lia.
Qed.

Lemma str_over_limit_spec (int_max_str_digits n : Z) :
  str_over_limit int_max_str_digits n = true
  <-> (0 < int_max_str_digits
       /\ 10 ^ Z.max 640 int_max_str_digits <= Z.abs n)%Z.
Proof.
  unfold str_over_limit, str_digits_check_threshold.
  rewrite !andb_true_iff, !Z.leb_le, Z.ltb_lt.
  destruct (Z.max_spec 640 int_max_str_digits) as [[Hlt ->] | [Hle ->]].
  - assert (10 ^ 640 <= 10 ^ int_max_str_digits)%Z
      by (apply Z.pow_le_mono_r; lia).
    lia.
  - split; [tauto|]. intros [Hpos Hn].
    assert (10 ^ int_max_str_digits <= 10 ^ 640)%Z
      by (apply Z.pow_le_mono_r; lia).
    lia.
Qed.

(** X19: the label of a speaker id that ends in an underscore followed by
    digits, as the labels ["SPEAKER_00"], ["SPEAKER_01"], ... of the
    diarization and the default label do, whatever precedes the
    underscore.  With [number] the number that the digits denote plus one
    and [limit] the larger of 640 and the interpreter's limit on the
    digits of an integer conversion: the id is shown with [number] when
    the interpreter has no limit, or when the id has at most [limit]
    digits and [number] fewer than [limit + 1]; it is shown unchanged
    when the interpreter has a limit and the id has more than [limit]
    digits or [number] more than [limit]; so an id of fewer than 640
    digits is shown with its number whatever the limit. *)
Theorem speaker_label_numbered :
  forall (int_max_str_digits : Z) (prefix digits : string),
    digits <> "" -> all_digits digits = true ->
    ((int_max_str_digits <= 0
      \/ (Z.of_nat (String.length digits) <= Z.max 640 int_max_str_digits
          /\ digits_value 0 digits + 1
             < 10 ^ Z.max 640 int_max_str_digits))%Z ->
     speaker_label int_max_str_digits (prefix ++ String "_" digits)
     = Konusmaci (digits_value 0 digits + 1))
    /\ ((0 < int_max_str_digits
         /\ (Z.max 640 int_max_str_digits < Z.of_nat (String.length digits)
             \/ 10 ^ Z.max 640 int_max_str_digits
                <= digits_value 0 digits + 1))%Z ->
        speaker_label int_max_str_digits (prefix ++ String "_" digits)
        = Unchanged (prefix ++ String "_" digits))
    /\ ((Z.of_nat (String.length digits) < 640)%Z ->
        speaker_label int_max_str_digits (prefix ++ String "_" digits)
        = Konusmaci (digits_value 0 digits + 1)).
Proof.
  intros int_max_str_digits prefix digits Hne Hd.
  pose proof (digits_value_bound digits 0 Hd (Z.le_refl 0)) as Hv.
  assert (Hlabel :
            speaker_label int_max_str_digits (prefix ++ String "_" digits)
            = if over_limit int_max_str_digits
                   (Z.of_nat (String.length digits))
              then Unchanged (prefix ++ String "_" digits)
              else if str_over_limit int_max_str_digits
                        (digits_value 0 digits + 1)
                   then Unchanged (prefix ++ String "_" digits)
                   else Konusmaci (digits_value 0 digits + 1)).
  { unfold speaker_label.
    rewrite last_piece_after, (last_piece_digits digits "" Hd).
    cbn [String.append]. rewrite (py_int_digits _ _ Hne Hd).
    destruct (over_limit _ _); reflexivity. }
  rewrite Hlabel.
  pose proof (over_limit_spec int_max_str_digits
                (Z.of_nat (String.length digits))) as Ho.
  pose proof (str_over_limit_spec int_max_str_digits
                (digits_value 0 digits + 1)) as Hs.
  rewrite Z.abs_eq in Hs by lia.
  assert (Hnumbered :
            (int_max_str_digits <= 0
             \/ (Z.of_nat (String.length digits)
                 <= Z.max 640 int_max_str_digits
                 /\ digits_value 0 digits + 1
                    < 10 ^ Z.max 640 int_max_str_digits))%Z ->
            (if over_limit int_max_str_digits
                  (Z.of_nat (String.length digits))
             then Unchanged (prefix ++ String "_" digits)
             else if str_over_limit int_max_str_digits
                       (digits_value 0 digits + 1)
                  then Unchanged (prefix ++ String "_" digits)
                  else Konusmaci (digits_value 0 digits + 1))
            = Konusmaci (digits_value 0 digits + 1)).
  { intro H.
    destruct (over_limit _ _); [exfalso; pose proof (proj1 Ho eq_refl); lia|].
    destruct (str_over_limit _ _);
      [exfalso; pose proof (proj1 Hs eq_refl); lia|].
    reflexivity. }
  split; [exact Hnumbered|]. split.
  - intros [Hpos H].
    destruct (over_limit _ _) eqn:Eo; [reflexivity|].
    destruct (str_over_limit _ _) eqn:Es; [reflexivity|].
    exfalso. destruct H as [H | H].
    + assert (false = true) by (apply Ho; lia). discriminate.
    + assert (false = true) by (apply Hs; lia). discriminate.
  - intro Hshort. apply Hnumbered. right.
    assert (H640 : (10 ^ Z.of_nat (String.length digits)
                    < 10 ^ Z.max 640 int_max_str_digits)%Z)
      by (apply Z.pow_lt_mono_r; lia).
    lia.
Qed.

Lemma speaker_label_numbered_witness :
  speaker_label 4300 ("SPEAKER" ++ String "_" "07") = Konusmaci 8.
Proof.
  refine (proj1 (speaker_label_numbered 4300 "SPEAKER" "07" _ _) _).
  - discriminate.
  - reflexivity.
  - right. split; vm_compute; [discriminate | reflexivity].
Defined.

(** An id of 641 nines under a limit of 640 digits is shown unchanged, and
    so is one of 640 nines, whose number has 641 digits. *)
Example long_speaker_id_unchanged :
  let nines := fun n => string_of_list_ascii (repeat "9"%char n) in
  speaker_label 640 ("SPEAKER_" ++ nines 641%nat)
  = Unchanged ("SPEAKER_" ++ nines 641%nat)
  /\ speaker_label 640 ("SPEAKER_" ++ nines 640%nat)
     = Unchanged ("SPEAKER_" ++ nines 640%nat)
  /\ speaker_label 640 ("SPEAKER_" ++ nines 639%nat)
     = Konusmaci (10 ^ 639)
  /\ speaker_label 0 ("SPEAKER_" ++ nines 641%nat)
     = Konusmaci (10 ^ 641).
Proof.
  vm_compute. repeat split; reflexivity.
Qed.

(** [int] raises on a separator that [str.strip] drops, and reads
    underscores between digits. *)
Example py_int_examples :
  py_int 4300 (String (ascii_of_nat 28) "1") = None
  /\ py_int 4300 (String (ascii_of_nat 133) " -07 ") = Some (-7)%Z
  /\ py_int 4300 "1_0" = Some 10%Z
  /\ py_int 4300 "1__0" = None
  /\ py_int 4300 "_1" = None
  /\ py_int 4300 "1_" = None
  /\ py_int 4300 "+ 1" = None
  /\ py_int 4300 "" = None.
Proof.
  vm_compute. repeat split; reflexivity.
Qed.

(** ** Chunked transcription: what is returned *)

Lemma merge_from_text (rest : list Chunk) :
  forall prev,
    text prev <> "" ->
    Forall (fun c => text c <> "") rest ->
    Forall (fun c => text c <> "") (merge_from prev rest).
Proof.
  induction rest as [|current rest IH]; intros prev Hprev Hrest; simpl.
  - repeat constructor. exact Hprev.
  - apply Forall_cons_iff in Hrest. destruct Hrest as [Hcur Hrest].
    destruct (stitches prev current).
    + apply IH; [|exact Hrest]. unfold stitched. cbn [text].
      destruct (text prev); [contradiction | discriminate].
    + constructor; [exact Hprev|]. apply IH; assumption.
Qed.

(** X20: an audio shorter than one second yields no chunk and an empty
    text; in every case each chunk returned after the merge has a
    non-empty text. *)
Theorem transcription_result :
  forall (sample_rate : Z) (decode : Z -> Z -> string) (len : Z),
    (0 < sample_rate)%Z ->
    ((len < sample_rate)%Z ->
     transcribe_audio_chunked sample_rate decode len
     = {| chunks := []; parsed_text := "" |})
    /\ Forall (fun c => text c <> "")
         (chunks (transcribe_audio_chunked sample_rate decode len)).
Proof.
  intros sample_rate decode len Hsr. unfold transcribe_audio_chunked.
  rewrite transcribe_loop_windows, app_nil_l. split.
  - intro Hshort.
    assert (E : windows_from sample_rate (iterations sample_rate len) len 0
                = []).
    { unfold iterations. cbn [windows_from].
      destruct (0 <? len)%Z; [|reflexivity].
      assert (E2 : (Z.min (0 + chunk_samples sample_rate) len - 0
                    <? sample_rate)%Z = true) by (apply Z.ltb_lt; lia).
      rewrite E2. reflexivity. }
    rewrite E. reflexivity.
  - cbn [chunks].
    pose proof (flat_map_window_chunks_placed sample_rate decode
                  (windows_from sample_rate (iterations sample_rate len)
                     len 0)) as H.
    destruct (flat_map _ _) as [|first rest]; [constructor|].
    rewrite merge_overlapping_chunks_cons.
    apply Forall_cons_iff in H. destruct H as [(_ & _ & _ & _ & Hf) Hr].
    apply merge_from_text; [exact Hf|].
    eapply Forall_impl; [|exact Hr].
    intros c (_ & _ & _ & _ & Hc). exact Hc.
Qed.

Lemma transcription_result_witness :
  ((8000 < 16000)%Z ->
   transcribe_audio_chunked 16000 one_word 8000
   = {| chunks := []; parsed_text := "" |})
  /\ Forall (fun c => text c <> "")
       (chunks (transcribe_audio_chunked 16000 one_word 8000)).
Proof.
  apply (transcription_result 16000 one_word 8000). reflexivity.
Defined.

(** ** Redundancy remover: a clean timeline *)

Lemma follows_cleanly_accepted (prev current : Aligned) :
  follows_cleanly prev current -> accepted_after prev current.
Proof.
  intros [Hafter Hlong]. unfold accepted_after. split; [|split].
  - unfold is_contained_duplicate, overlap_duration.
    rewrite py_max_zero_nonpos.
    + assert (Hz : Qltb 0.8 (0 / (r_end current - r_start current)) = false).
      { apply Qltb_ge. unfold Qdiv. rewrite Qmult_0_l. lra. }
      rewrite Hz, andb_false_r. reflexivity.
    + destruct (py_min_cases (r_end prev) (r_end current)) as [[? ->]|[? ->]];
        destruct (py_max_cases (r_start prev) (r_start current))
          as [[? ->]|[? ->]]; lra.
  - unfold fix_drift.
    rewrite (proj2 (Qltb_ge (r_start current) (r_end prev)) Hafter).
    reflexivity.
  - exact Hlong.
Qed.

Lemma chain_impl {A : Type} (R S : A -> A -> Prop) (l : list A) :
  (forall x y, R x y -> S x y) -> chain R l -> chain S l.
Proof.
  intros HRS. induction 1; constructor; auto.
Qed.

(** X21: segments each of which starts when its predecessor has ended and
    lasts more than 0.1 seconds are all returned unchanged by the
    redundancy remover, whatever their texts. *)
Theorem clean_timeline_unchanged :
  forall segments : list Aligned,
    chain follows_cleanly segments ->
    _remove_redundant_segments segments = segments.
Proof.
  intros [|first rest] H; [reflexivity|].
  rewrite remove_redundant_segments_cons. apply clean_from_fixed.
  apply (chain_impl follows_cleanly); [|exact H].
  apply follows_cleanly_accepted.
Qed.

Lemma clean_timeline_unchanged_witness :
  _remove_redundant_segments clean_timeline = clean_timeline.
Proof.
  apply (clean_timeline_unchanged clean_timeline).
  apply chain_cons; [split; [apply Qle_refl | reflexivity]|].
  apply chain_cons; [split; [vm_compute; discriminate | reflexivity]|].
  apply chain_one.
Defined.
